(** * certgraph: a shallow embedding of [main.go]

    The program walks the graph whose edges are the host names found in TLS
    certificates.  This development embeds

    - the pure helpers [directDomain], [checkNetErr], [getPeerCerts],
      [BFSPeers], [printGraph] as functions;
    - the goroutines of [BFS] (dispatcher, workers, saver, main) as
      per-goroutine transition functions over an explicit shared state, the
      scheduler being the only source of nondeterminism ([step]).

    Go strings are byte strings; they are modelled by [string] (a list of
    8-bit [ascii]).  Go maps are modelled by [gmap]; Go [int] is a 64-bit
    two's complement integer, modelled by [Z] with the wrap-around written
    out ([wrap64]). *)

From Stdlib Require Import ZArith Ascii String List Lia.
From stdpp Require Import base tactics option list sorting gmap strings relations.

Local Open Scope Z_scope.

(** ** Strings *)

(** [strings.ToLower] on one ASCII byte: 'A'..'Z' are moved to 'a'..'z'. *)
Definition lowerByte (a : ascii) : ascii :=
  let n := N_of_ascii a in
  if ((65 <=? n) && (n <=? 90))%N then ascii_of_N (n + 32) else a.

(** [strings.ToLower] restricted to ASCII input, where Go maps bytes one by
    one.  (On input with bytes above 0x7f Go decodes UTF-8; the traversal
    model below is therefore stated for an arbitrary lower-casing function
    and this one is used for concrete host names.) *)
Fixpoint asciiToLower (s : string) : string :=
  match s with
  | EmptyString => EmptyString
  | String a s' => String (lowerByte a) (asciiToLower s')
  end.

(** [len(s)] as a Go int. *)
Definition len (s : string) : Z := Z.of_nat (String.length s).

(** The slice expression [s[lo:hi]]. *)
Definition slice (s : string) (lo hi : nat) : string := substring lo (hi - lo) s.

(** [directDomain]: the non-wildcard version of a domain. *)
Definition directDomain (domain : string) : string :=
  if len domain <? 3 then domain
  else if String.eqb (slice domain 0 2) "*."
       then slice domain 2 (String.length domain)
       else domain.

(** [sort.Strings]: ascending byte-wise order.  Any sorting algorithm yields
    the same slice, the order being total and antisymmetric. *)
Definition sortStrings (l : list string) : list string := merge_sort String.le l.



(** ** Certificates and the resolver *)

(** The two fields of [x509.Certificate] the program reads. *)
Record Certificate := mkCert {
  CommonName : string;        (* cert.Subject.CommonName *)
  DNSNames : list string      (* cert.DNSNames *)
}.

(** The dynamic type of a non-nil [error] as [checkNetErr] inspects it. *)
Inductive ErrKind :=
| OpError (Op : string)       (* *net.OpError *)
| Errno (e : Z)               (* syscall.Errno *)
| OtherError.

(** A non-nil error: its dynamic type and the outcome of
    [err.(net.Error); ok && netError.Timeout()]. *)
Record NetErr := mkErr { errKind : ErrKind; errTimeout : bool }.

(** [syscall.ECONNREFUSED] (linux). *)
Definition ECONNREFUSED : Z := 111.

(** [checkNetErr]: the returned flag, and the line handed to [v]. *)
Definition checkNetErr (err : option NetErr) (domain : string)
  : bool * option (string * string) :=
  match err with
  | None => (false, None)
  | Some e =>
    if errTimeout e then (true, Some ("Timeout", domain))
    else match errKind e with
         | OpError op =>
           if String.eqb op "dial" then (true, Some ("Unknown host", domain))
           else if String.eqb op "read" then (true, Some ("Connection refused", domain))
           else (true, None)
         | Errno t =>
           if t =? ECONNREFUSED then (true, Some ("Connection refused", domain))
           else (true, None)
         | OtherError => (true, None)
         end
  end.

(** What [tls.DialWithDialer] hands back: a connection whose state carries
    the peer certificates, or an error. *)
Inductive DialResult :=
| Connected (PeerCertificates : list Certificate)
| Failed (err : NetErr).

Definition dialErr (r : DialResult) : option NetErr :=
  match r with Connected _ => None | Failed e => Some e end.

(** ** Neighbour derivation (the body of [BFSPeers] after the fetch) *)

Section Peers.

(** [strings.ToLower]. *)
Variable lower : string -> string.

(** [domainMap[cn] = true] for the lower-cased common name of [certs[0]]. *)
Definition addCommonName (certs : list Certificate) (domainMap : gmap string bool)
  : gmap string bool :=
  match certs with
  | [] => domainMap
  | c :: _ =>
    let cn := lower (CommonName c) in
    if len cn >? 0 then <[cn := true]> domainMap else domainMap
  end.

(** The inner loop over [cert.DNSNames]. *)
Definition addDNSNames (domainMap : gmap string bool) (names : list string)
  : gmap string bool :=
  foldl (fun m domain =>
           if len domain >? 0 then <[lower domain := true]> m else m)
        domainMap names.

(** The outer loop over [certs]. *)
Definition addCerts (domainMap : gmap string bool) (certs : list Certificate)
  : gmap string bool :=
  foldl (fun m cert => addDNSNames m (DNSNames cert)) domainMap certs.

(** The map built by [BFSPeers] for a non-empty chain. *)
Definition domainMapOf (certs : list Certificate) : gmap string bool :=
  addCerts (addCommonName certs ∅) certs.

(** One order in which [range domainMap] may yield the keys. *)
Definition rangeKeys (m : gmap string bool) : list string := (map_to_list m).*1.

(** [BFSPeers] on the chain returned by [getPeerCerts]. *)
Definition peerDomains (certs : list Certificate) : list string :=
  match certs with
  | [] => []
  | _ => sortStrings (rangeKeys (domainMapOf certs))
  end.

(** The names in the words of the specification: the lower-cased common
    name of the leaf when non-empty, and every non-empty DNS name,
    lower-cased. *)
Definition specNames (certs : list Certificate) : list string :=
  match certs with
  | [] => []
  | c :: _ =>
    (if len (lower (CommonName c)) >? 0 then [lower (CommonName c)] else [])
    ++ flat_map (fun cert => lower <$> filter (fun d => 0 < len d) (DNSNames cert))
                certs
  end.

(** The neighbour list in the words of the specification: those names,
    deduplicated and sorted ascending. *)
Definition specNeighbors (certs : list Certificate) : list string :=
  sortStrings (remove_dups (specNames certs)).

End Peers.


(** ** The traversal state *)

(** Go's [int] arithmetic: 64-bit two's complement. *)
Definition wrap64 (z : Z) : Z := (z + 2 ^ 63) mod 2 ^ 64 - 2 ^ 63.

(** [DomainNode]; [Neighbors] is a pointer to a slice, [None] being nil. *)
Record DomainNode := mkNode {
  Domain : string;
  Depth : Z;
  Neighbors : option (list string)
}.

(** What a run is given: the flags read by [main], and the two library
    functions the traversal calls. *)
Record Env := mkEnv {
  ToLower : string -> string;                       (* strings.ToLower *)
  DialWithDialer : string -> string -> DialResult;  (* TLS dial of host, port *)
  host : string;                                    (* -host *)
  port : string;                                    (* -port *)
  maxDepth : Z;                                     (* -depth *)
  parallel : Z                                      (* -parallel *)
}.

(** The dispatcher goroutine (lines 141-179): blocked on the receive, or
    holding the node it received. *)
Inductive DispatcherPC :=
| DRecv
| DHave (domainNode : DomainNode).

(** A worker goroutine (lines 158-174), with its local [neighbors]. *)
Inductive WorkerPC :=
| WAcquire                                        (* <-threadPass *)
| WVisit                                          (* BFSPeers call in flight *)
| WEmit (neighbors : list string)                 (* domainGraphChan <- domainNode *)
| WRange (rest : list string)                     (* loop head: wg.Add(1), or
                                                     leave and release the pass *)
| WSend (neighbor : string) (rest : list string)  (* domainChan <- &DomainNode{..} *)
| WDone.                                          (* deferred wg.Done() *)

(** The save goroutine (lines 183-194). *)
Inductive SaverPC :=
| SRecv        (* <-domainGraphChan *)
| SSignal      (* done <- true *)
| SExit.

(** The caller of [BFS] from line 196 on. *)
Inductive MainPC :=
| MWait        (* wg.Wait() *)
| MClose       (* close(domainGraphChan) *)
| MRecvDone    (* <-done *)
| MReturned.

Record State := mkState {
  threadPass : list bool;              (* buffered channel, capacity parallel *)
  wg : Z;                              (* sync.WaitGroup counter *)
  domainChan : list DomainNode;        (* buffered channel, capacity 5 *)
  domainGraphChan : list DomainNode;   (* buffered channel, capacity 5 *)
  closed : bool;                       (* domainGraphChan has been closed *)
  markedDomains : gmap string bool;
  domainGraph : gmap string DomainNode;
  depth : Z;
  dispatcher : DispatcherPC;
  workers : list (DomainNode * WorkerPC);
  saver : SaverPC;
  mainPC : MainPC;
  resolved : list string;              (* ghost: hosts passed to BFSPeers, latest first *)
  crashed : bool                       (* a goroutine panicked *)
}.

Definition set_threadPass (s : State) v :=
  mkState v (wg s) (domainChan s) (domainGraphChan s) (closed s) (markedDomains s)
    (domainGraph s) (depth s) (dispatcher s) (workers s) (saver s) (mainPC s)
    (resolved s) (crashed s).
Definition set_wg (s : State) v :=
  mkState (threadPass s) v (domainChan s) (domainGraphChan s) (closed s) (markedDomains s)
    (domainGraph s) (depth s) (dispatcher s) (workers s) (saver s) (mainPC s)
    (resolved s) (crashed s).
Definition set_domainChan (s : State) v :=
  mkState (threadPass s) (wg s) v (domainGraphChan s) (closed s) (markedDomains s)
    (domainGraph s) (depth s) (dispatcher s) (workers s) (saver s) (mainPC s)
    (resolved s) (crashed s).
Definition set_domainGraphChan (s : State) v :=
  mkState (threadPass s) (wg s) (domainChan s) v (closed s) (markedDomains s)
    (domainGraph s) (depth s) (dispatcher s) (workers s) (saver s) (mainPC s)
    (resolved s) (crashed s).
Definition set_closed (s : State) v :=
  mkState (threadPass s) (wg s) (domainChan s) (domainGraphChan s) v (markedDomains s)
    (domainGraph s) (depth s) (dispatcher s) (workers s) (saver s) (mainPC s)
    (resolved s) (crashed s).
Definition set_markedDomains (s : State) v :=
  mkState (threadPass s) (wg s) (domainChan s) (domainGraphChan s) (closed s) v
    (domainGraph s) (depth s) (dispatcher s) (workers s) (saver s) (mainPC s)
    (resolved s) (crashed s).
Definition set_domainGraph (s : State) v :=
  mkState (threadPass s) (wg s) (domainChan s) (domainGraphChan s) (closed s)
    (markedDomains s) v (depth s) (dispatcher s) (workers s) (saver s) (mainPC s)
    (resolved s) (crashed s).
Definition set_depth (s : State) v :=
  mkState (threadPass s) (wg s) (domainChan s) (domainGraphChan s) (closed s)
    (markedDomains s) (domainGraph s) v (dispatcher s) (workers s) (saver s) (mainPC s)
    (resolved s) (crashed s).
Definition set_dispatcher (s : State) v :=
  mkState (threadPass s) (wg s) (domainChan s) (domainGraphChan s) (closed s)
    (markedDomains s) (domainGraph s) (depth s) v (workers s) (saver s) (mainPC s)
    (resolved s) (crashed s).
Definition set_workers (s : State) v :=
  mkState (threadPass s) (wg s) (domainChan s) (domainGraphChan s) (closed s)
    (markedDomains s) (domainGraph s) (depth s) (dispatcher s) v (saver s) (mainPC s)
    (resolved s) (crashed s).
Definition set_saver (s : State) v :=
  mkState (threadPass s) (wg s) (domainChan s) (domainGraphChan s) (closed s)
    (markedDomains s) (domainGraph s) (depth s) (dispatcher s) (workers s) v (mainPC s)
    (resolved s) (crashed s).
Definition set_mainPC (s : State) v :=
  mkState (threadPass s) (wg s) (domainChan s) (domainGraphChan s) (closed s)
    (markedDomains s) (domainGraph s) (depth s) (dispatcher s) (workers s) (saver s) v
    (resolved s) (crashed s).
Definition set_resolved (s : State) v :=
  mkState (threadPass s) (wg s) (domainChan s) (domainGraphChan s) (closed s)
    (markedDomains s) (domainGraph s) (depth s) (dispatcher s) (workers s) (saver s)
    (mainPC s) v (crashed s).
Definition set_crashed (s : State) v :=
  mkState (threadPass s) (wg s) (domainChan s) (domainGraphChan s) (closed s)
    (markedDomains s) (domainGraph s) (depth s) (dispatcher s) (workers s) (saver s)
    (mainPC s) (resolved s) v.

(** [m[k]] on a [map[string]bool]: the zero value when the key is absent. *)
Definition mapGet (m : gmap string bool) (k : string) : bool := default false (m !! k).

(** [wg.Done()]: the counter may not become negative. *)
Definition wgDone (s : State) : State :=
  if wg s - 1 <? 0 then set_crashed s true else set_wg s (wg s - 1).

(** Capacity of [domainChan] and of [domainGraphChan]. *)
Definition chanCap : nat := 5.

(** ** The goroutines *)

Section BFS.

Variable env : Env.

(** [getPeerCerts]. *)
Definition getPeerCerts (h : string) : list Certificate :=
  let r := DialWithDialer env h (port env) in
  if fst (checkNetErr (dialErr r) h) then []
  else match r with
       | Connected certs => certs
       | Failed _ => []
       end.

(** [BFSPeers]. *)
Definition BFSPeers (h : string) : list string :=
  peerDomains (ToLower env) (getPeerCerts h).

(** One turn of the dispatcher: the receive, or the rest of the loop body. *)
Definition dispatcherStep (s : State) : option State :=
  match dispatcher s with
  | DRecv =>
    match domainChan s with
    | [] => None
    | domainNode :: q => Some (set_dispatcher (set_domainChan s q) (DHave domainNode))
    end
  | DHave domainNode =>
    if Depth domainNode >? maxDepth env then
      Some (set_dispatcher (wgDone s) DRecv)
    else
      let s1 := if Depth domainNode >? depth s then set_depth s (Depth domainNode) else s in
      let dDomain := directDomain (Domain domainNode) in
      if negb (mapGet (markedDomains s1) dDomain) then
        Some (set_dispatcher
                (set_workers
                   (set_markedDomains s1 (<[dDomain := true]> (markedDomains s1)))
                   (workers s1 ++ [(domainNode, WAcquire)]))
                DRecv)
      else
        Some (set_dispatcher (wgDone s1) DRecv)
  end.

(** One turn of a worker: the new shared state and what remains of the
    worker ([None] once its function has returned). *)
Definition workerStep (s : State) (w : DomainNode * WorkerPC)
  : option (State * option (DomainNode * WorkerPC)) :=
  let '(domainNode, pc) := w in
  match pc with
  | WAcquire =>
    match threadPass s with
    | [] => None
    | _ :: q => Some (set_threadPass s q, Some (domainNode, WVisit))
    end
  | WVisit =>
    let dDomain := directDomain (Domain domainNode) in
    let neighbors := BFSPeers dDomain in
    Some (set_resolved s (dDomain :: resolved s),
          Some (mkNode (Domain domainNode) (Depth domainNode) (Some neighbors),
                WEmit neighbors))
  | WEmit neighbors =>
    if closed s then (* send on a closed channel *)
      Some (set_crashed s true, Some (domainNode, WEmit neighbors))
    else if (length (domainGraphChan s) <? chanCap)%nat then
      Some (set_domainGraphChan s (domainGraphChan s ++ [domainNode]),
            Some (domainNode, WRange neighbors))
    else None
  | WRange (neighbor :: rest) =>
    Some (set_wg s (wg s + 1), Some (domainNode, WSend neighbor rest))
  | WSend neighbor rest =>
    if (length (domainChan s) <? chanCap)%nat then
      Some (set_domainChan s
              (domainChan s ++ [mkNode neighbor (wrap64 (Depth domainNode + 1)) None]),
            Some (domainNode, WRange rest))
    else None
  | WRange [] =>
    if Z.of_nat (length (threadPass s)) <? parallel env then
      Some (set_threadPass s (threadPass s ++ [true]), Some (domainNode, WDone))
    else None
  | WDone => Some (wgDone s, None)
  end.

(** One turn of the save goroutine.  [done] is unbuffered: the send takes
    place together with the receive of [main]. *)
Definition saverStep (s : State) : option State :=
  match saver s with
  | SRecv =>
    match domainGraphChan s with
    | domainNode :: q =>
      Some (set_domainGraph (set_domainGraphChan s q)
              (<[directDomain (Domain domainNode) := domainNode]> (domainGraph s)))
    | [] => if closed s then Some (set_saver s SSignal) else None
    end
  | SSignal =>
    match mainPC s with
    | MRecvDone => Some (set_mainPC (set_saver s SExit) MReturned)
    | _ => None
    end
  | SExit => None
  end.

(** One turn of the caller. *)
Definition mainStep (s : State) : option State :=
  match mainPC s with
  | MWait => if wg s =? 0 then Some (set_mainPC s MClose) else None
  | MClose =>
    if closed s then Some (set_crashed s true)
    else Some (set_mainPC (set_closed s true) MRecvDone)
  | MRecvDone => None
  | MReturned => None
  end.

Definition optList {A} (o : option A) : list A :=
  match o with Some a => [a] | None => [] end.

(** Any goroutine that is not blocked may take the next turn. *)
Inductive step : State -> State -> Prop :=
| step_dispatcher s s' :
    crashed s = false -> dispatcherStep s = Some s' -> step s s'
| step_worker s ws1 w ws2 s1 ow :
    crashed s = false -> workers s = ws1 ++ w :: ws2 ->
    workerStep s w = Some (s1, ow) ->
    step s (set_workers s1 (ws1 ++ optList ow ++ ws2))
| step_saver s s' :
    crashed s = false -> saverStep s = Some s' -> step s s'
| step_main s s' :
    crashed s = false -> mainStep s = Some s' -> step s s'.

(** The state when [BFS root] reaches [wg.Wait()]: the passes are in
    [threadPass], the root is queued and counted, both goroutines exist.
    (The goroutines started earlier cannot tell the difference: the
    statements of [BFS] in between touch nothing they read.) *)
Definition BFS_init (root : string) : State :=
  {| threadPass := replicate (Z.to_nat (parallel env)) true;
     wg := 1;
     domainChan := [mkNode root 0 None];
     domainGraphChan := [];
     closed := false;
     markedDomains := ∅;
     domainGraph := ∅;
     depth := 0;
     dispatcher := DRecv;
     workers := [];
     saver := SRecv;
     mainPC := MWait;
     resolved := [];
     crashed := false |}.

(** The states of a run of [BFS (ToLower host)], as [main] calls it. *)
Definition reachable (s : State) : Prop :=
  rtc step (BFS_init (ToLower env (host env))) s.

(** *** A scheduler *)

(** The first worker of [ws2] that is not blocked takes a turn. *)
Fixpoint firstWorker (s : State) (ws1 ws2 : list (DomainNode * WorkerPC))
  : option State :=
  match ws2 with
  | [] => None
  | w :: ws2' =>
    match workerStep s w with
    | Some (s1, ow) => Some (set_workers s1 (ws1 ++ optList ow ++ ws2'))
    | None => firstWorker s (ws1 ++ [w]) ws2'
    end
  end.

(** Dispatcher first, then the saver, the workers in order, the caller. *)
Definition schedule (s : State) : option State :=
  if crashed s then None
  else match dispatcherStep s with
       | Some s' => Some s'
       | None =>
         match saverStep s with
         | Some s' => Some s'
         | None =>
           match firstWorker s [] (workers s) with
           | Some s' => Some s'
           | None => mainStep s
           end
         end
       end.

Fixpoint run (fuel : nat) (s : State) : State :=
  match fuel with
  | O => s
  | S fuel' => match schedule s with Some s' => run fuel' s' | None => s end
  end.

(** ** Reporting *)

(** [printGraph]: one line per domain in ascending order, each with the
    depth and the dereferenced neighbours; [None] when a dereference
    faults. *)
Definition printLine (g : gmap string DomainNode) (domain : string)
  : option (string * Z * list string) :=
  match g !! domain with
  | None => None
  | Some node =>
    match Neighbors node with
    | None => None
    | Some ns => Some (domain, Depth node, ns)
    end
  end.

Definition printGraph (g : gmap string DomainNode)
  : option (list (string * Z * list string)) :=
  mapM (printLine g) (sortStrings (map_to_list g).*1).

(** What a run of [main] shows: the line on stderr that is not verbose
    output, the lines of [printGraph], and the hosts it dialled. *)
Record Outcome := mkOutcome {
  stderr : list string;
  stdout : option (list (string * Z * list string));
  traversal : option State;            (* the state [BFS] was left in, if called *)
  dialled : list string
}.

(** [main], the goroutines being run by [schedule] for [fuel] turns. *)
Definition main (fuel : nat) : Outcome :=
  if parallel env <? 1 then
    mkOutcome ["Must enter a positive number of parallel threads"] (Some []) None []
  else
    let startDomain := ToLower env (host env) in
    let s := run fuel (BFS_init startDomain) in
    mkOutcome [] (printGraph (domainGraph s)) (Some s) (resolved s).

(** ** The depth bound in the words of the specification *)

(** Every node the run holds. *)
Definition nodesOf (s : State) : list DomainNode :=
  domainChan s
  ++ match dispatcher s with DHave n => [n] | DRecv => [] end
  ++ map fst (workers s)
  ++ domainGraphChan s
  ++ (map_to_list (domainGraph s)).*2.



(** A checkable form of [closedUnder]. *)
Definition closedUnderb (U : list string) (root : string) : bool :=
  bool_decide (directDomain root ∈ U)
  && forallb (fun h => forallb (fun x => bool_decide (directDomain x ∈ U)) (BFSPeers h)) U.

(** ** Invariants of the traversal *)

(** From the receive on [threadPass] to the deferred send back. *)
Definition holdsPass (pc : WorkerPC) : bool :=
  match pc with
  | WVisit | WEmit _ | WRange _ | WSend _ _ => true
  | WAcquire | WDone => false
  end.

(** Inside the call of the resolver. *)
Definition inFlight (pc : WorkerPC) : bool :=
  match pc with WVisit => true | _ => false end.

Definition countPC (p : WorkerPC -> bool) (ws : list (DomainNode * WorkerPC)) : nat :=
  sum_list_with (fun w => if p (snd w) then 1%nat else 0%nat) ws.

Definition passesHeld (s : State) : nat := countPC holdsPass (workers s).
Definition callsInFlight (s : State) : nat := countPC inFlight (workers s).

(** What a worker still owes the wait group: its own item, and the
    neighbour it has counted but not yet queued. *)
Definition owed (w : DomainNode * WorkerPC) : nat :=
  match snd w with WSend _ _ => 2%nat | _ => 1%nat end.

(** The frontier items not yet retired: queued, held by the dispatcher,
    or in the hands of a worker. *)
Definition outstanding (s : State) : nat :=
  (length (domainChan s)
   + match dispatcher s with DHave _ => 1 | DRecv => 0 end
   + sum_list_with owed (workers s))%nat.

(** The goroutines of [BFS] agree on how far the shutdown has come. *)
Definition shutdownOk (s : State) : Prop :=
  match mainPC s with
  | MWait => closed s = false /\ saver s = SRecv
  | MClose => closed s = false /\ saver s = SRecv /\ wg s = 0
  | MRecvDone =>
    closed s = true /\ wg s = 0 /\
    (saver s = SRecv \/ (saver s = SSignal /\ domainGraphChan s = []))
  | MReturned =>
    closed s = true /\ wg s = 0 /\ saver s = SExit /\ domainGraphChan s = []
  end.

Record Inv (s : State) : Prop := mkInv {
  inv_crashed : crashed s = false;
  inv_wg : wg s = Z.of_nat (outstanding s);
  inv_pass : (length (threadPass s) + passesHeld s)%nat = Z.to_nat (parallel env);
  inv_shutdown : shutdownOk s
}.

(** A node that has been visited carries the neighbours of its domain. *)
Definition visitedNode (n : DomainNode) : Prop :=
  Depth n <= maxDepth env /\ Neighbors n = Some (BFSPeers (directDomain (Domain n))).

Definition workerOk (w : DomainNode * WorkerPC) : Prop :=
  Depth (fst w) <= maxDepth env /\
  match snd w with
  | WAcquire | WVisit => Neighbors (fst w) = None
  | WEmit ns => ns = BFSPeers (directDomain (Domain (fst w))) /\ Neighbors (fst w) = Some ns
  | WRange _ | WSend _ _ | WDone =>
    Neighbors (fst w) = Some (BFSPeers (directDomain (Domain (fst w))))
  end.

Record InvNodes (s : State) : Prop := mkInvNodes {
  inv_workers : Forall workerOk (workers s);
  inv_chan : Forall visitedNode (domainGraphChan s);
  inv_graph : forall k n, domainGraph s !! k = Some n ->
                k = directDomain (Domain n) /\ visitedNode n;
  inv_frontier : Forall (fun n => Neighbors n = None) (domainChan s);
  inv_held : match dispatcher s with DHave n => Neighbors n = None | DRecv => True end
}.

(** Number of occurrences of a domain in a list. *)
Definition occ (d : string) (l : list string) : nat := count_occ string_dec l d.

(** A worker owns its node until it has sent it to the saver. *)
Definition beforeVisit (pc : WorkerPC) : bool :=
  match pc with WAcquire | WVisit => true | _ => false end.

Definition domainsAt (p : WorkerPC -> bool) (ws : list (DomainNode * WorkerPC))
  : list string :=
  flat_map (fun w => if p (snd w) then [directDomain (Domain (fst w))] else []) ws.

Definition atEmit (pc : WorkerPC) : bool :=
  match pc with WEmit _ => true | _ => false end.

(** The canonical domains of the nodes whose neighbours are known and that
    are on their way into, or in, [domainGraph]. *)
Definition visitedDomains (s : State) : list string :=
  domainsAt atEmit (workers s)
  ++ map (fun n => directDomain (Domain n)) (domainGraphChan s)
  ++ (map_to_list (domainGraph s)).*1.

(** The canonical domains of all admitted nodes. *)
Definition admittedDomains (s : State) : list string :=
  domainsAt beforeVisit (workers s) ++ visitedDomains s.

Record InvUniq (s : State) : Prop := mkInvUniq {
  inv_once : forall d, (occ d (admittedDomains s)
                        <= if mapGet (markedDomains s) d then 1 else 0)%nat;
  inv_resolved : forall d, occ d (resolved s) = occ d (visitedDomains s)
}.

(** ** Finite certificate graphs and the termination measure *)

(** [U] holds the seed and is closed under the neighbour relation. *)
Definition closedUnder (U : list string) (root : string) : Prop :=
  directDomain root ∈ U /\
  forall h x, h ∈ U -> x ∈ BFSPeers h -> directDomain x ∈ U.

Definition inU (U : list string) (x : string) : Prop := directDomain x ∈ U.

Definition workerInU (U : list string) (w : DomainNode * WorkerPC) : Prop :=
  inU U (Domain (fst w)) /\
  match snd w with
  | WEmit ns | WRange ns => Forall (inU U) ns
  | WSend x rest => inU U x /\ Forall (inU U) rest
  | WAcquire | WVisit | WDone => True
  end.

Record InvU (U : list string) (s : State) : Prop := mkInvU {
  invU_chan : Forall (fun n => inU U (Domain n)) (domainChan s);
  invU_disp : match dispatcher s with DHave n => inU U (Domain n) | DRecv => True end;
  invU_workers : Forall (workerInU U) (workers s)
}.

Definition degree (d : string) : nat := length (BFSPeers d).

(** Turns a worker has left at most, its future items included. *)
Definition workerCost (w : DomainNode * WorkerPC) : nat :=
  match snd w with
  | WAcquire => 6 + 4 * degree (directDomain (Domain (fst w)))
  | WVisit => 5 + 4 * degree (directDomain (Domain (fst w)))
  | WEmit ns => 4 + 4 * length ns
  | WRange rest => 2 + 4 * length rest
  | WSend _ rest => 5 + 4 * length rest
  | WDone => 1
  end%nat.

(** Turns a domain may still cause while it is not marked. *)
Definition domainCost (m : gmap string bool) (u : string) : nat :=
  if mapGet m u then 0%nat else (7 + 4 * degree u)%nat.

Definition unmarkedCost (U : list string) (m : gmap string bool) : nat :=
  sum_list_with (domainCost m) U.

Definition measure (U : list string) (s : State) : nat :=
  (unmarkedCost U (markedDomains s)
   + 2 * length (domainChan s)
   + match dispatcher s with DHave _ => 1 | DRecv => 0 end
   + sum_list_with workerCost (workers s)
   + length (domainGraphChan s)
   + match saver s with SRecv => 2 | SSignal => 1 | SExit => 0 end
   + match mainPC s with MWait => 3 | MClose => 2 | MRecvDone => 1 | MReturned => 0 end
   + if crashed s then 0 else 1)%nat.

(** ** Further invariants *)

(** [depth] is the high-water mark of the depths that passed the check of
    the dispatcher. *)
Record InvDepth (s : State) : Prop := mkInvDepth {
  invd_nonneg : 0 <= depth s;
  invd_max : depth s <= Z.max 0 (maxDepth env);
  invd_workers : Forall (fun w => Depth (fst w) <= depth s) (workers s);
  invd_chan : Forall (fun n => Depth n <= depth s) (domainGraphChan s);
  invd_graph : forall k n, domainGraph s !! k = Some n -> Depth n <= depth s
}.

(** Depths stay between 0 and the bound (one more for a frontier item). *)
Definition frontierDepth (n : DomainNode) : Prop :=
  0 <= Depth n <= Z.max 0 (maxDepth env + 1).

Definition admittedDepth (n : DomainNode) : Prop :=
  0 <= Depth n <= maxDepth env.

Record InvRange (s : State) : Prop := mkInvRange {
  invr_frontier : Forall frontierDepth (domainChan s);
  invr_held : match dispatcher s with DHave n => frontierDepth n | DRecv => True end;
  invr_workers : Forall (fun w => admittedDepth (fst w)) (workers s);
  invr_chan : Forall admittedDepth (domainGraphChan s);
  invr_graph : forall k n, domainGraph s !! k = Some n -> admittedDepth n
}.

(** A domain is marked exactly when one node has been admitted for it. *)
Definition InvExact (s : State) : Prop :=
  forall d, occ d (admittedDomains s)
            = if mapGet (markedDomains s) d then 1%nat else 0%nat.

(** *** Nothing a certificate names is lost *)

(** A frontier item for [x] at depth [d] is queued or with the dispatcher. *)
Definition inFrontier (s : State) (x : string) (d : Z) : Prop :=
  mkNode x d None ∈ domainChan s \/ dispatcher s = DHave (mkNode x d None).

(** The item for [x] at depth [d] is beyond the bound, or pending, or its
    canonical domain is marked. *)
Definition handled (s : State) (x : string) (d : Z) : Prop :=
  d > maxDepth env
  \/ mapGet (markedDomains s) (directDomain x) = true
  \/ inFrontier s x d.

(** The depth given to the items of the neighbours of a node. *)
Definition childDepth (n : DomainNode) : Z := wrap64 (Depth n + 1).

(** Every neighbour of [n] is still in [pending] or has been handled. *)
Definition neighborsHandled (s : State) (n : DomainNode) (pending : list string) : Prop :=
  forall x, x ∈ BFSPeers (directDomain (Domain n)) ->
            x ∈ pending \/ handled s x (childDepth n).

Definition pastEmit (pc : WorkerPC) : bool :=
  match pc with WRange _ | WSend _ _ | WDone => true | _ => false end.

Definition workerCover (s : State) (w : DomainNode * WorkerPC) : Prop :=
  match snd w with
  | WRange rest => neighborsHandled s (fst w) rest
  | WSend y rest => neighborsHandled s (fst w) (y :: rest)
  | WDone => neighborsHandled s (fst w) []
  | WAcquire | WVisit | WEmit _ => True
  end.

(** The worker of an emitted node is still at its loop, or all neighbours
    of the node have been handled. *)
Definition nodeCover (s : State) (n : DomainNode) : Prop :=
  (exists pc, (n, pc) ∈ workers s /\ pastEmit pc = true)
  \/ neighborsHandled s n [].

Record InvCover (root : string) (s : State) : Prop := mkInvCover {
  invc_seed : handled s root 0;
  invc_workers : Forall (workerCover s) (workers s);
  invc_chan : Forall (nodeCover s) (domainGraphChan s);
  invc_graph : forall k n, domainGraph s !! k = Some n -> nodeCover s n
}.

(** *** Where a node comes from *)

(** The node has been sent to the save goroutine. *)
Definition emitted (s : State) (p : DomainNode) : Prop :=
  p ∈ domainGraphChan s \/ exists k, domainGraph s !! k = Some p.

(** [x] at depth [d] was named by the certificate of an emitted node. *)
Definition hasParent (s : State) (x : string) (d : Z) : Prop :=
  exists p, emitted s p /\ x ∈ BFSPeers (directDomain (Domain p)) /\ d = childDepth p.

Definition origin (root : string) (s : State) (n : DomainNode) : Prop :=
  (Domain n = root /\ Depth n = 0) \/ hasParent s (Domain n) (Depth n).

Definition workerOrigin (root : string) (s : State) (w : DomainNode * WorkerPC) : Prop :=
  origin root s (fst w) /\
  match snd w with
  | WRange rest =>
    emitted s (fst w) /\ forall x, x ∈ rest -> x ∈ BFSPeers (directDomain (Domain (fst w)))
  | WSend y rest =>
    emitted s (fst w)
    /\ forall x, x ∈ y :: rest -> x ∈ BFSPeers (directDomain (Domain (fst w)))
  | WAcquire | WVisit | WEmit _ | WDone => True
  end.

Record InvOrigin (root : string) (s : State) : Prop := mkInvOrigin {
  invo_frontier : Forall (origin root s) (domainChan s);
  invo_held : match dispatcher s with DHave n => origin root s n | DRecv => True end;
  invo_workers : Forall (workerOrigin root s) (workers s);
  invo_chan : Forall (origin root s) (domainGraphChan s);
  invo_graph : forall k n, domainGraph s !! k = Some n -> origin root s n
}.

(** *** What a run never undoes *)

(** From [s] to [s']: marks stay, recorded nodes stay as they are, the
    resolver log only grows at its head, [depth] does not go down. *)
Definition keeps (s s' : State) : Prop :=
  (forall d, mapGet (markedDomains s) d = true -> mapGet (markedDomains s') d = true)
  /\ (forall k n, domainGraph s !! k = Some n -> domainGraph s' !! k = Some n)
  /\ (exists new, resolved s' = new ++ resolved s)
  /\ depth s <= depth s'.

End BFS.

(** ** Example networks *)

Definition san (names : list string) : DialResult := Connected [mkCert "" names].

(** a.test -> b.test -> c.test, every certificate naming its own host. *)
Definition chainNet (h p : string) : DialResult :=
  if String.eqb h "a.test" then san ["a.test"; "b.test"]
  else if String.eqb h "b.test" then san ["b.test"; "c.test"]
  else if String.eqb h "c.test" then san ["c.test"]
  else Failed (mkErr (OpError "dial") false).

Definition chainEnv (D P : Z) : Env := mkEnv asciiToLower chainNet "A.test" "443" D P.

Definition chainDomains : list string := ["a.test"; "b.test"; "c.test"].

(** a.test names b.test and c.test; b.test refuses the connection. *)
Definition refusedNet (h p : string) : DialResult :=
  if String.eqb h "a.test" then san ["a.test"; "*.b.test"; "c.test"]
  else if String.eqb h "b.test" then Failed (mkErr (Errno ECONNREFUSED) false)
  else if String.eqb h "c.test" then san ["c.test"; "b.test"]
  else Failed (mkErr (OpError "dial") false).

Definition refusedEnv : Env := mkEnv asciiToLower refusedNet "a.test" "443" 20 2.

(** The chain a.test -> b.test -> c.test run to its end. *)
Definition chainFinal (D P : Z) : State :=
  run (chainEnv D P) 100 (BFS_init (chainEnv D P) "a.test").

(** The network in which b.test refuses, run to its end. *)
Definition refusedFinal : State := run refusedEnv 100 (BFS_init refusedEnv "a.test").

(** * Proofs *)

Create HintDb setters.
#[local] Hint Unfold set_threadPass set_wg set_domainChan set_domainGraphChan set_closed
  set_markedDomains set_domainGraph set_depth set_dispatcher set_workers set_saver
  set_mainPC set_resolved set_crashed : setters.

(** Reduce the projections of an updated state. *)
Ltac sets := autounfold with setters in *; cbn [threadPass wg domainChan domainGraphChan
  closed markedDomains domainGraph depth dispatcher workers saver mainPC resolved
  crashed fst snd] in *.

(** ** Neighbour derivation *)

Section PeersProofs.

Variable lower : string -> string.

Lemma rangeKeys_elem (m : gmap string bool) x : x ∈ rangeKeys m <-> is_Some (m !! x).
Proof.
  unfold rangeKeys. rewrite list_elem_of_fmap. split.
  - intros ([k v] & -> & Hin%elem_of_map_to_list). by exists v.
  - intros [v Hv]. exists (x, v). split; [done|]. by apply elem_of_map_to_list.
Qed.

Lemma addDNSNames_elem m names x :
  is_Some (addDNSNames lower m names !! x) <->
  is_Some (m !! x) \/ x ∈ lower <$> filter (fun d => 0 < len d)%Z names.
Proof.
  unfold addDNSNames. revert m. induction names as [|d names IH]; intros m.
  - simpl. rewrite elem_of_nil. tauto.
  - cbn [foldl]. rewrite IH. rewrite filter_cons.
    destruct (Z.gtb_spec (len d) 0) as [Hpos|Hle].
    + rewrite decide_True by lia. rewrite fmap_cons, elem_of_cons.
      rewrite lookup_insert_is_Some.
      destruct (decide (lower d = x)) as [<-|Hne]; [tauto|].
      split; [intros [[Heq|[_ Hm]]|Hin]|intros [Hm|[Heq|Hin]]]; auto.
    + rewrite decide_False by lia. tauto.
Qed.

Lemma addCerts_elem m certs x :
  is_Some (addCerts lower m certs !! x) <->
  is_Some (m !! x) \/
  x ∈ flat_map (fun cert => lower <$> filter (fun d => 0 < len d)%Z (DNSNames cert)) certs.
Proof.
  unfold addCerts. revert m. induction certs as [|c certs IH]; intros m.
  - simpl. rewrite elem_of_nil. tauto.
  - cbn [foldl flat_map]. rewrite IH, addDNSNames_elem, elem_of_app. tauto.
Qed.

Lemma domainMapOf_elem c certs x :
  is_Some (domainMapOf lower (c :: certs) !! x) <-> x ∈ specNames lower (c :: certs).
Proof.
  unfold domainMapOf, specNames, addCommonName.
  rewrite addCerts_elem, elem_of_app.
  destruct (len (lower (CommonName c)) >? 0)%Z.
  - rewrite lookup_insert_is_Some, lookup_empty, list_elem_of_singleton.
    split; [intros [[->|[_ []%is_Some_None]]|]; auto|intros [->|]; auto].
  - rewrite lookup_empty, elem_of_nil. split; [intros [[]%is_Some_None|]; auto|tauto].
Qed.

Lemma peerDomains_elem certs x : x ∈ peerDomains lower certs <-> x ∈ specNames lower certs.
Proof.
  destruct certs as [|c certs]; [done|].
  unfold peerDomains, sortStrings.
  rewrite merge_sort_Permutation, rangeKeys_elem. apply domainMapOf_elem.
Qed.

Lemma peerDomains_NoDup certs : NoDup (peerDomains lower certs).
Proof.
  destruct certs as [|c certs]; [constructor|].
  unfold peerDomains, sortStrings. rewrite merge_sort_Permutation.
  apply NoDup_fst_map_to_list.
Qed.

Lemma peerDomains_sorted certs : StronglySorted String.le (peerDomains lower certs).
Proof.
  destruct certs as [|c certs]; [constructor|].
  apply StronglySorted_merge_sort; apply _.
Qed.

Lemma sortStrings_unique l k :
  NoDup l -> NoDup k -> (forall x, x ∈ l <-> x ∈ k) -> sortStrings l = sortStrings k.
Proof.
  intros Hl Hk Hlk. unfold sortStrings.
  apply (StronglySorted_unique String.le);
    [apply StronglySorted_merge_sort; apply _..|].
  rewrite !merge_sort_Permutation. by apply NoDup_Permutation.
Qed.

(** C5: the neighbour list is the lower-cased non-empty common name of the
    leaf together with every lower-cased non-empty DNS name, deduplicated
    and sorted ascending; it does not depend on the order in which the map
    is ranged over; and for CN "a.test" with DNS names "B.Test", "a.test"
    it is "a.test", "b.test". *)
Theorem peerDomains_spec (certs : list Certificate) :
  peerDomains lower certs = specNeighbors lower certs
  /\ StronglySorted String.le (peerDomains lower certs)
  /\ NoDup (peerDomains lower certs)
  /\ (forall x, x ∈ peerDomains lower certs <-> x ∈ specNames lower certs)
  /\ (forall keys, keys ≡ₚ rangeKeys (domainMapOf lower certs) ->
        sortStrings keys = sortStrings (rangeKeys (domainMapOf lower certs)))
  /\ peerDomains asciiToLower [mkCert "a.test" ["B.Test"; "a.test"]]
     = ["a.test"; "b.test"].
Proof.
  split; [|split; [|split; [|split; [|split]]]].
  - destruct certs as [|c certs]; [done|].
    unfold peerDomains, specNeighbors. apply sortStrings_unique.
    + apply NoDup_fst_map_to_list.
    + apply NoDup_remove_dups.
    + intros x. rewrite rangeKeys_elem, elem_of_remove_dups. apply domainMapOf_elem.
  - apply peerDomains_sorted.
  - apply peerDomains_NoDup.
  - apply peerDomains_elem.
  - intros keys Hperm. apply sortStrings_unique.
    + rewrite Hperm. apply NoDup_fst_map_to_list.
    + apply NoDup_fst_map_to_list.
    + intros x. by rewrite Hperm.
  - vm_compute. reflexivity.
Qed.

End PeersProofs.

(** ** The canonicaliser *)

Section Canonical.

Local Open Scope nat_scope.

Lemma substring_all s : substring 0 (String.length s) s = s.
Proof. induction s as [|a s IH]; simpl; [done|by rewrite IH]. Qed.

(** On three bytes or more: the first two are dropped when they are "*.". *)
Lemma directDomain_long a b c rest :
  directDomain (String a (String b (String c rest))) =
  if Ascii.eqb a "*" && Ascii.eqb b "."
  then String c rest
  else String a (String b (String c rest)).
Proof.
  unfold directDomain, len, slice.
  assert ((Z.of_nat (String.length (String a (String b (String c rest)))) <? 3)%Z = false)
    as -> by (apply Z.ltb_ge; simpl; lia).
  cbn [substring String.length Nat.sub String.eqb].
  rewrite substring_all.
  destruct (Ascii.eqb a "*"), (Ascii.eqb b "."); done.
Qed.







(** C10: for every input of fewer than three bytes the canonicaliser returns
    the input unchanged; the two-byte string "*." is such an input, so its
    wildcard label is not stripped. *)
Theorem directDomain_short (domain : string) :
  (len domain < 3)%Z -> directDomain domain = domain /\ directDomain "*." = "*.".
Proof.
  intros H. split; [|reflexivity]. unfold directDomain.
  destruct (Z.ltb_spec (len domain) 3) as [_|Hge]; [reflexivity|lia].
Qed.


End Canonical.

(** "*." alone keeps its wildcard label. *)
Lemma directDomain_short_witness :
  (len "a." < 3)%Z /\ directDomain "a." = "a." /\ directDomain "*." = "*.".
Proof. split; [reflexivity|apply (directDomain_short "a."); reflexivity]. Defined.



Section Traversal.

Variable env : Env.

Local Open Scope nat_scope.

(** Case analysis on the goroutine that takes the turn and on the branch
    it takes. *)
Ltac turn H :=
  let Hc := fresh "Hc" in
  let Hws := fresh "Hws" in
  destruct H as [? ? Hc H | ? ? [? ?] ? ? ? Hc Hws H | ? ? Hc H | ? ? Hc H];
  [ unfold dispatcherStep in H | unfold workerStep in H
  | unfold saverStep in H | unfold mainStep in H ];
  repeat case_match; simplify_eq.

Lemma Inv_init root : (1 <= parallel env)%Z -> Inv env (BFS_init env root).
Proof.
  intros HP. split; simpl; try done.
  - unfold passesHeld, countPC. simpl. rewrite length_replicate. lia.
Qed.

Lemma wgDone_ok s : (1 <= wg s)%Z -> wgDone s = set_wg s (wg s - 1).
Proof. intros H. unfold wgDone. case_match; [lia|done]. Qed.

(** Boolean tests of the program as propositions. *)
Ltac bools :=
  repeat match goal with
         | H : (_ =? _)%Z = true |- _ => apply Z.eqb_eq in H
         | H : (_ =? _)%Z = false |- _ => apply Z.eqb_neq in H
         | H : (_ <? _)%Z = true |- _ => apply Z.ltb_lt in H
         | H : (_ <? _)%Z = false |- _ => apply Z.ltb_ge in H
         | H : (_ >? _)%Z = true |- _ => apply Z.gtb_gt in H
         | H : (_ >? _)%Z = false |- _ => rewrite Z.gtb_ltb in H; apply Z.ltb_ge in H
         | H : (_ <? _)%nat = true |- _ => apply Nat.ltb_lt in H
         | H : (_ <? _)%nat = false |- _ => apply Nat.ltb_ge in H
         | H : negb _ = true |- _ => apply negb_true_iff in H
         | H : negb _ = false |- _ => apply negb_false_iff in H
         end.

(** Bring the split of the worker pool into the sums over it. *)
Ltac pool :=
  repeat match goal with
         | H : ?f ?s = _ |- _ => is_var s; progress (rewrite H in * )
         end;
  sets;
  unfold outstanding, passesHeld, callsInFlight, countPC, optList in *; sets;
  rewrite ?sum_list_with_app in *; simpl in *.

Lemma Inv_step s s' : Inv env s -> step env s s' -> Inv env s'.
Proof.
  intros [Hcr Hwg Hpass Hsh] Hstep. unfold shutdownOk in Hsh.
  turn Hstep; bools; pool.
  all: rewrite ?wgDone_ok by (pool; lia).
  all: split; unfold shutdownOk; pool; rewrite ?sum_list_with_app, ?length_app; simpl.
  all: try done; try lia.
  all: repeat case_match; simplify_eq; intuition (try congruence; try lia).
Qed.

Lemma InvNodes_init root : InvNodes env (BFS_init env root).
Proof.
  split; simpl; try done.
  - by repeat constructor.
Qed.

Lemma InvNodes_step s s' : InvNodes env s -> step env s s' -> InvNodes env s'.
Proof.
  intros [Hw Hch Hg Hf Hd] Hstep.
  turn Hstep; bools; pool.
  all: unfold wgDone; repeat case_match; sets.
  all: split; sets.
  all: rewrite ?Forall_app, ?Forall_cons, ?Forall_nil in *;
    unfold workerOk, visitedNode in *; simpl in *.
  all: try done; pool; try (intuition (try congruence; try lia); fail).
  all: try (by apply Forall_nil).
  all: intros k n [[<- <-]|[_ Hl]]%lookup_insert_Some; [intuition | by apply Hg].
Qed.

Lemma occ_app d l1 l2 : occ d (l1 ++ l2) = occ d l1 + occ d l2.
Proof. apply count_occ_app. Qed.

Lemma occ_cons d x l : occ d (x :: l) = (if decide (x = d) then 1 else 0) + occ d l.
Proof. unfold occ. simpl. destruct (string_dec x d); case_decide; done. Qed.

Lemma occ_nil d : occ d [] = 0.
Proof. done. Qed.

Lemma occ_keys {A} (g : gmap string A) d :
  occ d (map_to_list g).*1 = match g !! d with Some _ => 1 | None => 0 end.
Proof.
  unfold occ.
  pose proof (NoDup_fst_map_to_list g) as Hnd.
  rewrite NoDup_ListNoDup, (NoDup_count_occ string_dec) in Hnd. specialize (Hnd d).
  destruct (g !! d) as [a|] eqn:Hl.
  - assert (In d (map_to_list g).*1) as Hin.
    { apply list_elem_of_In, list_elem_of_fmap. exists (d, a). split; [done|].
      by apply elem_of_map_to_list. }
    apply (count_occ_In string_dec) in Hin. lia.
  - apply count_occ_not_In. intros Hin%list_elem_of_In%list_elem_of_fmap.
    destruct Hin as ([k a] & -> & Hin%elem_of_map_to_list). simpl in Hl. congruence.
Qed.

Lemma domainsAt_app p ws1 ws2 :
  domainsAt p (ws1 ++ ws2) = domainsAt p ws1 ++ domainsAt p ws2.
Proof. apply flat_map_app. Qed.

Lemma mapGet_insert m k d :
  mapGet (<[k := true]> m) d = if decide (k = d) then true else mapGet m d.
Proof. unfold mapGet. rewrite lookup_insert. by case_decide. Qed.

(** Unfold the occurrence counts down to arithmetic. *)
Ltac counts :=
  unfold admittedDomains, visitedDomains in *; sets;
  rewrite ?domainsAt_app, ?map_app, ?occ_app, ?occ_keys in *; simpl in *;
  rewrite ?occ_app, ?occ_cons, ?occ_nil, ?occ_keys in *.

Lemma InvUniq_init root : InvUniq (BFS_init env root).
Proof.
  split; intros d; unfold admittedDomains, visitedDomains; simpl.
  - rewrite map_to_list_empty. simpl. case_match; lia.
  - by rewrite map_to_list_empty.
Qed.

Lemma InvUniq_step s s' : InvUniq s -> step env s s' -> InvUniq s'.
Proof.
  intros [Ho Hr] Hstep.
  turn Hstep; bools; pool.
  all: unfold wgDone; repeat case_match; sets.
  all: split; intros d0; specialize (Ho d0); specialize (Hr d0); counts; pool; counts.
  all: try done; try lia.
  all: rewrite ?mapGet_insert, ?lookup_insert in *.
  all: repeat (case_decide || case_match || destruct (string_dec _ _));
    simplify_eq; try lia; try congruence.
Qed.

(** *** The scheduler takes turns of [step], and finds one while [BFS]
    has not returned *)

Lemma firstWorker_sound s ws1 ws2 s' :
  crashed s = false -> workers s = ws1 ++ ws2 ->
  firstWorker env s ws1 ws2 = Some s' -> step env s s'.
Proof.
  intros Hc. revert ws1. induction ws2 as [|w ws2 IH]; intros ws1 Hws Hf; [done|].
  simpl in Hf. destruct (workerStep env s w) as [[s1 ow]|] eqn:Hw.
  - injection Hf as <-. by eapply step_worker.
  - apply (IH (ws1 ++ [w])); [|done]. by rewrite <-app_assoc.
Qed.

Lemma schedule_sound s s' : schedule env s = Some s' -> step env s s'.
Proof.
  unfold schedule. intros H.
  destruct (crashed s) eqn:Hc; [done|].
  destruct (dispatcherStep env s) eqn:Hd; [injection H as <-; by apply step_dispatcher|].
  destruct (saverStep s) eqn:Hs; [injection H as <-; by apply step_saver|].
  destruct (firstWorker env s [] (workers s)) eqn:Hf.
  - injection H as <-. by apply (firstWorker_sound s [] (workers s)).
  - by apply step_main.
Qed.

Lemma run_steps fuel s : rtc (step env) s (run env fuel s).
Proof.
  revert s. induction fuel as [|fuel IH]; intros s; simpl; [done|].
  destruct (schedule env s) eqn:Hs; [|done].
  eapply rtc_l; [by apply schedule_sound|apply IH].
Qed.

Lemma firstWorker_some s ws1 ws2 w :
  w ∈ ws2 -> is_Some (workerStep env s w) -> is_Some (firstWorker env s ws1 ws2).
Proof.
  revert ws1. induction ws2 as [|w' ws2 IH]; intros ws1 Hin Hw.
  - by apply elem_of_nil in Hin.
  - simpl. destruct (workerStep env s w') as [[s1 ow]|] eqn:Hw'; [done|].
    apply elem_of_cons in Hin as [->|Hin]; [rewrite Hw' in Hw; by destruct Hw|].
    by apply IH.
Qed.

Lemma countPC_pos p ws : 0 < countPC p ws -> exists w, w ∈ ws /\ p (snd w) = true.
Proof.
  unfold countPC. induction ws as [|w ws IH]; simpl; [lia|].
  destruct (p (snd w)) eqn:Hp; intros Hpos.
  - exists w. split; [by left|done].
  - destruct IH as (w' & Hin & Hw'); [lia|]. exists w'. split; [by right|done].
Qed.

Lemma countPC_in p ws w : w ∈ ws -> p (snd w) = true -> 0 < countPC p ws.
Proof.
  intros Hin Hp. unfold countPC.
  pose proof (sum_list_with_in w (fun w => if p (snd w) then 1 else 0) ws Hin) as Hle.
  simpl in Hle. rewrite Hp in Hle. lia.
Qed.

(** With both queues drained, a worker is blocked only on an empty
    [threadPass]. *)
Lemma worker_enabled s w :
  Inv env s -> w ∈ workers s -> domainChan s = [] -> domainGraphChan s = [] ->
  (snd w = WAcquire -> threadPass s <> []) ->
  is_Some (workerStep env s w).
Proof.
  intros [_ _ Hpass _] Hin Hdc Hgc Hacq. destruct w as [n pc]. unfold workerStep.
  assert (holdsPass pc = true -> (Z.of_nat (length (threadPass s)) < parallel env)%Z) as Hroom.
  { intros Hp. pose proof (countPC_in holdsPass _ _ Hin Hp). unfold passesHeld in Hpass. lia. }
  destruct pc as [| |ns|[|x rest]|x rest|]; simpl in *.
  - destruct (threadPass s); [by destruct Hacq|done].
  - done.
  - rewrite Hgc. simpl. by destruct (closed s).
  - specialize (Hroom eq_refl). apply Z.ltb_lt in Hroom. by rewrite Hroom.
  - done.
  - by rewrite Hdc.
  - done.
Qed.

Lemma pool_progress s :
  (1 <= parallel env)%Z -> Inv env s -> workers s <> [] ->
  domainChan s = [] -> domainGraphChan s = [] ->
  is_Some (firstWorker env s [] (workers s)).
Proof.
  intros HP HI Hne Hdc Hgc.
  destruct (threadPass s) as [|b tp] eqn:Htp.
  - destruct (countPC_pos holdsPass (workers s)) as (w & Hin & Hp).
    { pose proof (inv_pass _ _ HI) as Hpass. rewrite Htp in Hpass. simpl in Hpass.
      unfold passesHeld in Hpass. lia. }
    apply (firstWorker_some _ _ _ w); [done|].
    apply worker_enabled; try done. intros Hw. by rewrite Hw in Hp.
  - destruct (workers s) as [|w ws] eqn:Hws; [done|].
    apply (firstWorker_some _ _ _ w); [by left|].
    apply worker_enabled; try done; [rewrite Hws; by left|by rewrite Htp].
Qed.

Lemma owed_pos w : 1 <= owed w.
Proof. unfold owed. case_match; lia. Qed.

Lemma outstanding_zero s :
  outstanding s = 0 -> workers s = [] /\ domainChan s = [] /\ dispatcher s = DRecv.
Proof.
  unfold outstanding. intros H.
  destruct (workers s) as [|w ws];
    [|cbn [sum_list_with] in H; pose proof (owed_pos w); lia].
  destruct (domainChan s); [|simpl in H; lia].
  destruct (dispatcher s); [done|simpl in H; lia].
Qed.

Lemma schedule_progress s :
  (1 <= parallel env)%Z -> Inv env s -> mainPC s <> MReturned ->
  is_Some (schedule env s).
Proof.
  intros HP HI Hm. pose proof HI as [Hcr Hwg Hpass Hsh].
  unfold schedule. rewrite Hcr.
  destruct (dispatcherStep env s) eqn:Hd; [done|].
  destruct (saverStep s) eqn:Hs; [done|].
  assert (dispatcher s = DRecv /\ domainChan s = []) as [Hdr Hdc].
  { unfold dispatcherStep in Hd. repeat case_match; simplify_eq; done. }
  destruct (workers s) as [|w ws] eqn:Hws.
  - simpl. unfold mainStep, saverStep, shutdownOk, outstanding in *.
    rewrite Hdr, Hdc, Hws in Hwg. simpl in Hwg.
    repeat case_match; simplify_eq; try done; bools; try lia;
      intuition (try congruence).
  - assert (mainPC s = MWait) as Hmw.
    { unfold shutdownOk, outstanding in *. rewrite Hws in Hwg.
      cbn [sum_list_with] in Hwg. pose proof (owed_pos w).
      destruct (mainPC s); [done|intuition lia..]. }
    assert (domainGraphChan s = []) as Hgc.
    { unfold shutdownOk, saverStep in *. rewrite Hmw in Hsh. destruct Hsh as [Hcl Hsv].
      rewrite Hsv in Hs. by destruct (domainGraphChan s). }
    destruct (pool_progress s) as [s' Hs']; try done; [by rewrite Hws|].
    rewrite Hws in Hs'. by rewrite Hs'.
Qed.

(** Once [BFS] has returned nothing is left to do. *)
Lemma returned_quiescent s :
  Inv env s -> mainPC s = MReturned ->
  wg s = 0%Z /\ workers s = [] /\ domainChan s = [] /\ dispatcher s = DRecv
  /\ domainGraphChan s = [] /\ saver s = SExit.
Proof.
  intros [Hcr Hwg Hpass Hsh] Hm. unfold shutdownOk in Hsh. rewrite Hm in Hsh.
  destruct Hsh as (_ & Hz & Hsv & Hgc).
  destruct (outstanding_zero s) as (? & ? & ?); [lia|done].
Qed.

(** *** The invariants hold in every state of a run *)

Lemma reachable_ind (P : State -> Prop) :
  P (BFS_init env (ToLower env (host env))) ->
  (forall s s', P s -> step env s s' -> P s') ->
  forall s, reachable env s -> P s.
Proof.
  intros H0 HS. unfold reachable. apply rtc_ind_r; [done|].
  intros y z _ Hyz Hy. by eapply HS.
Qed.

Lemma reachable_Inv s : (1 <= parallel env)%Z -> reachable env s -> Inv env s.
Proof. intros HP. revert s. apply reachable_ind; [by apply Inv_init|apply Inv_step]. Qed.

Lemma reachable_InvNodes s : reachable env s -> InvNodes env s.
Proof. revert s. apply reachable_ind; [apply InvNodes_init|apply InvNodes_step]. Qed.

Lemma reachable_InvUniq s : reachable env s -> InvUniq s.
Proof. revert s. apply reachable_ind; [apply InvUniq_init|apply InvUniq_step]. Qed.

Section Finite.

(** A finite set of canonical domains that holds everything reachable. *)
Variable U : list string.
Variable root : string.
Hypothesis Hclosed : closedUnder env U root.

Lemma InvU_init : InvU U (BFS_init env root).
Proof.
  destruct Hclosed as [Hroot _]. split; simpl; try done.
  by repeat constructor.
Qed.

Lemma InvU_step s s' : InvU U s -> step env s s' -> InvU U s'.
Proof.
  destruct Hclosed as [_ Hnext].
  intros [Hch Hd Hw] Hstep.
  turn Hstep; bools; pool.
  all: unfold wgDone; repeat case_match; sets.
  all: split; sets; pool.
  all: rewrite ?Forall_app, ?Forall_cons, ?Forall_nil in *;
    unfold workerInU, inU in *; simpl in *.
  all: try done; try (intuition; fail).
  all: rewrite ?Forall_cons in *; try (intuition; fail).
  all: intuition; apply Forall_forall; intros x Hx; eapply Hnext; eauto.
Qed.

Lemma domainCost_mark m d u :
  domainCost env (<[d := true]> m) u <= domainCost env m u.
Proof. unfold domainCost. rewrite mapGet_insert. case_decide; repeat case_match; lia. Qed.

Lemma unmarkedCost_le m d V :
  unmarkedCost env V (<[d := true]> m) <= unmarkedCost env V m.
Proof.
  unfold unmarkedCost. induction V as [|v V IH]; [done|].
  cbn [sum_list_with]. pose proof (domainCost_mark m d v). lia.
Qed.

Lemma unmarkedCost_mark m d V :
  d ∈ V -> mapGet m d = false ->
  unmarkedCost env V (<[d := true]> m) + (7 + 4 * degree env d) <= unmarkedCost env V m.
Proof.
  intros Hin Hm.
  induction V as [|v V IH]; [by apply elem_of_nil in Hin|].
  unfold unmarkedCost in *. cbn [sum_list_with].
  apply elem_of_cons in Hin as [<-|Hin].
  - pose proof (unmarkedCost_le m d V) as Hle. unfold unmarkedCost in Hle.
    unfold domainCost at 1 3. rewrite mapGet_insert, decide_True, Hm by done. lia.
  - specialize (IH Hin). pose proof (domainCost_mark m d v). lia.
Qed.

Lemma measure_step s s' :
  InvU U s -> step env s s' -> measure env U s' < measure env U s.
Proof.
  intros [Hch Hd Hw] Hstep.
  turn Hstep; bools; pool.
  all: unfold wgDone; repeat case_match; sets.
  all: unfold measure; pool; rewrite ?sum_list_with_app, ?length_app; cbn; try lia.
  all: try (pose proof (unmarkedCost_mark _ _ U Hd ltac:(eassumption)); lia).
  all: unfold degree; lia.
Qed.

(** A run of [n] turns uses up at least [n] of the measure. *)
Lemma nsteps_measure n s s' :
  InvU U s -> nsteps (step env) n s s' -> n + measure env U s' <= measure env U s.
Proof.
  intros HI Hn. induction Hn as [|n x y z Hxy Hyz IH]; [lia|].
  pose proof (measure_step _ _ HI Hxy). pose proof (InvU_step _ _ HI Hxy) as HI'.
  specialize (IH HI'). lia.
Qed.

(** The scheduler brings [BFS] to its return within the measure. *)
Lemma run_returns fuel s :
  (1 <= parallel env)%Z -> Inv env s -> InvU U s ->
  measure env U s <= fuel -> mainPC (run env fuel s) = MReturned.
Proof.
  intros HP. revert s. induction fuel as [|fuel IH]; intros s HI HU Hm.
  - unfold measure in Hm. rewrite (inv_crashed _ _ HI) in Hm. lia.
  - simpl. destruct (schedule env s) as [s'|] eqn:Hs.
    + pose proof (schedule_sound _ _ Hs) as Hstep.
      apply IH; [by eapply Inv_step|by eapply InvU_step|].
      pose proof (measure_step _ _ HU Hstep). lia.
    + destruct (mainPC s) eqn:Hpc; [| | |done].
      all: destruct (schedule_progress s HP HI) as [s' Hs']; congruence.
Qed.

(** C2: on a finite certificate graph, cycles and self-references
    included, the wait-group counter equals the number of frontier items
    not yet retired in every state of a run; every run is finite; no run
    gets stuck before [BFS] has returned, so a run that cannot go on has
    returned; when it has returned the counter is zero and nothing is
    pending; and the scheduler gets there. *)
Theorem BFS_terminates :
  (1 <= parallel env)%Z -> root = ToLower env (host env) ->
  (forall s, reachable env s ->
     crashed s = false /\ wg s = Z.of_nat (outstanding s))
  /\ (forall n s, nsteps (step env) n (BFS_init env root) s ->
        n <= measure env U (BFS_init env root))
  /\ (forall s, reachable env s -> mainPC s <> MReturned -> exists s', step env s s')
  /\ (forall s, reachable env s -> (forall s', ~ step env s s') -> mainPC s = MReturned)
  /\ (forall s, reachable env s -> mainPC s = MReturned ->
        wg s = 0%Z /\ outstanding s = 0 /\ workers s = [] /\ domainChan s = [])
  /\ mainPC (run env (measure env U (BFS_init env root)) (BFS_init env root)) = MReturned.
Proof.
  intros HP Hroot. split; [|split; [|split; [|split; [|split]]]].
  - intros s Hr. destruct (reachable_Inv s HP Hr) as [Hc Hw _ _]. done.
  - intros n s Hn. pose proof (nsteps_measure n _ _ InvU_init Hn). lia.
  - intros s Hr Hne. pose proof (reachable_Inv s HP Hr) as HI.
    destruct (schedule_progress s HP HI Hne) as [s' Hs'].
    exists s'. by apply schedule_sound.
  - intros s Hr Hstuck. pose proof (reachable_Inv s HP Hr) as HI.
    destruct (mainPC s) eqn:Hm; [| | |done].
    all: destruct (schedule_progress s HP HI) as [s' Hs']; [congruence|].
    all: destruct (Hstuck s'); by apply schedule_sound.
  - intros s Hr Hm. pose proof (reachable_Inv s HP Hr) as HI.
    destruct (returned_quiescent s HI Hm) as (Hw & Hws & Hdc & Hd & _).
    pose proof (inv_wg _ _ HI). repeat split; try done. lia.
  - apply run_returns; [done|by apply Inv_init|apply InvU_init|done].
Qed.

End Finite.

Lemma closedUnderb_sound U root :
  closedUnderb env U root = true -> closedUnder env U root.
Proof.
  unfold closedUnderb, closedUnder. intros [H1 H2]%andb_true_iff. split.
  - by apply bool_decide_eq_true in H1.
  - intros h x Hh%list_elem_of_In Hx%list_elem_of_In.
    rewrite forallb_forall in H2. specialize (H2 h Hh).
    rewrite forallb_forall in H2. specialize (H2 x Hx).
    by apply bool_decide_eq_true in H2.
Qed.

(** *** The claims about every state of a run *)

Lemma inFlight_holdsPass ws : countPC inFlight ws <= countPC holdsPass ws.
Proof.
  unfold countPC. induction ws as [|[n pc] ws IH]; simpl; [done|].
  destruct pc; simpl; lia.
Qed.

(** C1: with [parallel] = P, in no state of a run are more than P calls of
    the resolver in flight, however many items are pending: the passes in
    [threadPass] and the passes held by workers always add up to P, a call
    in flight is made by a worker that holds a pass, the resolver is
    entered only by such a worker, and a worker's function returns only
    after the deferred send has put the pass back. *)
Theorem bounded_concurrency s :
  (1 <= parallel env)%Z -> reachable env s ->
  (Z.of_nat (callsInFlight s) <= parallel env)%Z
  /\ callsInFlight s <= passesHeld s
  /\ length (threadPass s) + passesHeld s = Z.to_nat (parallel env)
  /\ (forall s', step env s s' -> callsInFlight s < callsInFlight s' ->
        exists b, threadPass s = b :: threadPass s')
  /\ (forall s', step env s s' -> length (workers s') < length (workers s) ->
        exists ws1 n ws2, workers s = ws1 ++ (n, WDone) :: ws2
                          /\ workers s' = ws1 ++ ws2
                          /\ passesHeld s' = passesHeld s).
Proof.
  intros HP Hr. destruct (reachable_Inv s HP Hr) as [Hc Hw Hpass Hsh].
  pose proof (inFlight_holdsPass (workers s)) as Hle.
  unfold callsInFlight, passesHeld in *.
  split; [lia|]. split; [done|]. split; [done|]. split.
  - intros s' Hstep Hlt. unfold callsInFlight in Hlt.
    turn Hstep; pool; unfold wgDone in *; repeat case_match; pool;
      rewrite ?sum_list_with_app in *; simpl in *; try lia.
    all: eauto.
  - intros s' Hstep Hlen. turn Hstep; sets; unfold wgDone in *; unfold optList in *;
      repeat case_match; sets; try done; try rewrite Hws in Hlen;
      rewrite ?length_app in Hlen; simpl in Hlen; try lia.
    all: exists ws1, d, ws2; rewrite Hws; unfold countPC;
      rewrite !sum_list_with_app; done.
Qed.


(** C4: in every state of a run the admitted nodes, from the workers that
    have not yet sent theirs to the save goroutine down to the entries of
    [domainGraph], have pairwise different canonical domains, all marked;
    every entry of [domainGraph] sits under the canonical domain of its
    node, so two entries with the same canonical domain are one; a
    frontier item whose canonical domain is marked is dropped by the
    dispatcher without a worker; and "*.example.com" and "example.com"
    have the same canonical domain "example.com". *)
Theorem one_node_per_domain s :
  reachable env s ->
  NoDup (admittedDomains s)
  /\ (forall d, d ∈ admittedDomains s -> mapGet (markedDomains s) d = true)
  /\ (forall k n, domainGraph s !! k = Some n -> k = directDomain (Domain n))
  /\ (forall k1 n1 k2 n2,
        domainGraph s !! k1 = Some n1 -> domainGraph s !! k2 = Some n2 ->
        directDomain (Domain n1) = directDomain (Domain n2) -> k1 = k2 /\ n1 = n2)
  /\ (forall n s', dispatcher s = DHave n ->
        mapGet (markedDomains s) (directDomain (Domain n)) = true ->
        dispatcherStep env s = Some s' ->
        workers s' = workers s /\ markedDomains s' = markedDomains s)
  /\ directDomain "*.example.com" = "example.com"
  /\ directDomain "example.com" = "example.com".
Proof.
  intros Hr. destruct (reachable_InvNodes s Hr) as [Hw Hch Hg Hf Hd].
  destruct (reachable_InvUniq s Hr) as [Ho Hres].
  split; [|split; [|split; [|split; [|split; [|split]]]]]; try done.
  - apply NoDup_ListNoDup, (NoDup_count_occ string_dec). intros d.
    specialize (Ho d). unfold occ in Ho. destruct (mapGet (markedDomains s) d); lia.
  - intros d Hin. specialize (Ho d).
    apply list_elem_of_In, (count_occ_In string_dec) in Hin. unfold occ in Ho.
    destruct (mapGet (markedDomains s) d); [done|lia].
  - intros k n Hkn. by destruct (Hg _ _ Hkn).
  - intros k1 n1 k2 n2 H1 H2 Heq.
    destruct (Hg _ _ H1) as [-> _]. destruct (Hg _ _ H2) as [-> _].
    split; [done|]. rewrite Heq in H1. congruence.
  - intros n s' Hdn Hm Hstep. unfold dispatcherStep in Hstep. rewrite Hdn in Hstep.
    unfold wgDone in Hstep.
    repeat case_match; simplify_eq; sets; try done; bools; sets; congruence.
Qed.

(** C9: every node in [domainGraphChan] and every node of [domainGraph] has
    its [Neighbors] pointer set, in every state of a run, and [printGraph]
    dereferences without a fault. *)
Theorem neighbors_never_nil s :
  reachable env s ->
  Forall (fun n => is_Some (Neighbors n)) (domainGraphChan s)
  /\ (forall k n, domainGraph s !! k = Some n -> is_Some (Neighbors n))
  /\ is_Some (printGraph (domainGraph s)).
Proof.
  intros Hr. destruct (reachable_InvNodes s Hr) as [Hw Hch Hg Hf Hd].
  assert (forall k n, domainGraph s !! k = Some n -> is_Some (Neighbors n)) as Hsome.
  { intros k n Hkn. destruct (Hg _ _ Hkn) as (_ & _ & ->). done. }
  split; [|split; [done|]].
  - eapply Forall_impl; [exact Hch|]. intros n [_ ->]. done.
  - unfold printGraph. apply mapM_is_Some, Forall_forall. intros k Hk.
    unfold sortStrings in Hk. rewrite merge_sort_Permutation in Hk.
    apply list_elem_of_fmap in Hk as ([k' n] & -> & Hin%elem_of_map_to_list).
    simpl. unfold printLine. rewrite Hin.
    destruct (Hsome _ _ Hin) as [ns ->]. done.
Qed.

Lemma checkNetErr_fails e h : fst (checkNetErr (Some e) h) = true.
Proof. unfold checkNetErr. repeat case_match; done. Qed.

Lemma getPeerCerts_failed h e :
  DialWithDialer env h (port env) = Failed e -> getPeerCerts env h = [].
Proof.
  intros Hd. unfold getPeerCerts. rewrite Hd. cbv zeta. cbn [dialErr].
  by rewrite checkNetErr_fails.
Qed.

Lemma resolved_NoDup s : reachable env s -> NoDup (resolved s).
Proof.
  intros Hr. destruct (reachable_InvUniq s Hr) as [Ho Hres].
  apply NoDup_ListNoDup, (NoDup_count_occ string_dec). intros d.
  specialize (Ho d). specialize (Hres d). unfold admittedDomains in Ho.
  rewrite occ_app in Ho. unfold occ in *.
  destruct (mapGet (markedDomains s) d); lia.
Qed.

(** C7: when the dial of a host fails, whatever the error, [checkNetErr]
    reports it, [getPeerCerts] and [BFSPeers] return the empty list and
    nothing panics; the worker that visits the host goes on to send its
    node with an empty neighbour list; the node recorded for the host has
    an empty neighbour list; no host is ever resolved twice; and the run
    as a whole can always take another turn until [BFS] has returned. *)
Theorem resolver_failure_is_absorbed h e s :
  (1 <= parallel env)%Z ->
  DialWithDialer env h (port env) = Failed e ->
  reachable env s ->
  fst (checkNetErr (Some e) h) = true
  /\ getPeerCerts env h = []
  /\ BFSPeers env h = []
  /\ crashed s = false
  /\ NoDup (resolved s)
  /\ (forall n ws1 ws2,
        workers s = ws1 ++ (n, WVisit) :: ws2 -> directDomain (Domain n) = h ->
        step env s
          (set_workers (set_resolved s (h :: resolved s))
             (ws1 ++ [(mkNode (Domain n) (Depth n) (Some []), WEmit [])] ++ ws2)))
  /\ (forall n, n ∈ domainGraphChan s -> directDomain (Domain n) = h ->
        Neighbors n = Some [])
  /\ (forall n, domainGraph s !! h = Some n -> Neighbors n = Some [])
  /\ (mainPC s <> MReturned -> exists s', step env s s').
Proof.
  intros HP Hd Hr.
  assert (BFSPeers env h = []) as Hpeers.
  { unfold BFSPeers. by rewrite (getPeerCerts_failed h e). }
  pose proof (reachable_Inv s HP Hr) as HI.
  destruct (reachable_InvNodes s Hr) as [Hw Hch Hg Hf Hdn].
  split; [apply checkNetErr_fails|]. split; [by eapply getPeerCerts_failed|].
  split; [done|]. split; [apply (inv_crashed _ _ HI)|].
  split; [by apply resolved_NoDup|]. split; [|split; [|split]].
  - intros n ws1 ws2 Hws Hn.
    pose proof (step_worker env s ws1 (n, WVisit) ws2) as Hstep.
    simpl in Hstep. rewrite Hn, Hpeers in Hstep.
    apply (Hstep _ (Some _)); [apply (inv_crashed _ _ HI)|done..].
  - intros n Hin Hn. rewrite Forall_forall in Hch.
    destruct (Hch _ Hin) as [_ Hnb]. by rewrite Hnb, Hn, Hpeers.
  - intros n Hkn. destruct (Hg _ _ Hkn) as (Hk & _ & Hnb). by rewrite Hnb, <-Hk, Hpeers.
  - intros Hne. destruct (schedule_progress s HP HI Hne) as [s' Hs'].
    exists s'. by apply schedule_sound.
Qed.

(** C8: with a parallelism below 1, [main] writes the error and returns:
    [BFS] is not called, nothing is dialled and nothing is printed. *)
Theorem invalid_parallelism_is_fatal fuel :
  (parallel env < 1)%Z ->
  stderr (main env fuel) = ["Must enter a positive number of parallel threads"]
  /\ traversal (main env fuel) = None
  /\ dialled (main env fuel) = []
  /\ stdout (main env fuel) = Some [].
Proof.
  intros Hp. unfold main.
  destruct (Z.ltb_spec (parallel env) 1) as [_|Hge]; [|lia].
  repeat split.
Qed.

(** *** Further invariants *)

Lemma InvDepth_init root : InvDepth env (BFS_init env root).
Proof. split; simpl; try done; lia. Qed.

Lemma InvDepth_step s s' : InvDepth env s -> step env s s' -> InvDepth env s'.
Proof.
  intros [Hn Hm Hw Hch Hg] Hstep.
  turn Hstep; bools; pool.
  all: unfold wgDone; repeat case_match; sets.
  all: split; sets; pool.
  all: rewrite ?Forall_app, ?Forall_cons, ?Forall_nil in *; simpl in *.
  all: try done; try lia; try (intuition (try lia); fail).
  all: repeat split; try lia.
  all: try (eapply Forall_impl; [eassumption|simpl; intros; lia]).
  all: try (intros k n Hkn; specialize (Hg _ _ Hkn); lia).
  all: intros k n [[<- <-]|[_ Hl]]%lookup_insert_Some; [intuition|by eapply Hg].
Qed.

Lemma wrap64_small z : (- 2 ^ 63 <= z < 2 ^ 63)%Z -> wrap64 z = z.
Proof. intros Hz. unfold wrap64. rewrite Z.mod_small; lia. Qed.

Lemma InvRange_init root : InvRange env (BFS_init env root).
Proof.
  split; simpl; try done.
  repeat constructor; unfold frontierDepth; simpl; lia.
Qed.

Lemma InvRange_step s s' :
  (maxDepth env < 2 ^ 63 - 1)%Z -> InvRange env s -> step env s s' -> InvRange env s'.
Proof.
  intros Hmax [Hf Hd Hw Hch Hg] Hstep.
  turn Hstep; bools; pool.
  all: unfold wgDone; repeat case_match; sets.
  all: split; sets; pool.
  all: rewrite ?Forall_app, ?Forall_cons, ?Forall_nil in *;
    unfold frontierDepth, admittedDepth in *; simpl in *.
  all: try done; try lia; try (intuition (try lia); fail).
  all: try (intros k n [[<- <-]|[_ Hl]]%lookup_insert_Some; [intuition|by eapply Hg]).
  all: rewrite wrap64_small by lia; intuition lia.
Qed.

Lemma InvExact_init root : InvExact (BFS_init env root).
Proof.
  intros d. unfold admittedDomains, visitedDomains. simpl.
  rewrite map_to_list_empty. simpl. by case_match.
Qed.

Lemma InvExact_step s s' : InvExact s -> step env s s' -> InvExact s'.
Proof.
  intros Ho Hstep.
  turn Hstep; bools; pool.
  all: unfold wgDone; repeat case_match; sets.
  all: intros d0; specialize (Ho d0); counts; pool; counts.
  all: try done; try lia.
  all: rewrite ?mapGet_insert, ?lookup_insert in *.
  all: repeat (case_decide || case_match || destruct (string_dec _ _));
    simplify_eq; try lia; try congruence.
Qed.

Lemma keeps_step s s' : InvUniq s -> step env s s' -> keeps s s'.
Proof.
  intros [Ho _] Hstep. unfold keeps.
  turn Hstep; bools; pool.
  all: unfold wgDone; repeat case_match; sets.
  all: repeat split; try done; try lia; try (by exists []).
  all: try (intros d0 Hd0; rewrite mapGet_insert; by case_decide).
  - by exists [directDomain (Domain d)].
  - intros k n Hkn. rewrite lookup_insert_ne; [done|]. intros <-.
    specialize (Ho (directDomain (Domain d))).
    unfold admittedDomains, visitedDomains in Ho. rewrite H0 in Ho.
    counts. rewrite Hkn in Ho.
    repeat (case_decide || case_match); simplify_eq; lia.
Qed.

(** *** Nothing a certificate names is lost *)

Lemma handled_step s s' x d : step env s s' -> handled env s x d -> handled env s' x d.
Proof.
  unfold handled, inFrontier. intros Hstep Hh.
  turn Hstep; bools; pool.
  all: unfold wgDone; repeat case_match; sets.
  all: rewrite ?mapGet_insert, ?elem_of_app, ?elem_of_cons in *.
  all: try (intuition (try congruence); fail).
  all: destruct Hh as [Hd|[Hm|[Hin|Heq]]]; simplify_eq; simpl in *;
    repeat case_decide; try (intuition (try congruence; try lia); fail).
Qed.

Lemma neighborsHandled_step s s' n l :
  step env s s' -> neighborsHandled env s n l -> neighborsHandled env s' n l.
Proof.
  intros Hs H x Hx. destruct (H x Hx); [by left|right; by eapply handled_step].
Qed.

Lemma workerCover_step s s' w :
  step env s s' -> workerCover env s w -> workerCover env s' w.
Proof.
  intros Hs. unfold workerCover. destruct (snd w); try done;
    by apply neighborsHandled_step.
Qed.

(** The worker that has emitted [n] is still there after a turn, or it has
    handled every neighbour. *)
Lemma pastEmit_step s s' n pc :
  Forall (workerCover env s) (workers s) -> step env s s' ->
  (n, pc) ∈ workers s -> pastEmit pc = true -> nodeCover env s' n.
Proof.
  intros Hw Hstep Hin Hpc. pose proof Hstep as Hstep0. unfold nodeCover.
  turn Hstep; bools; pool.
  all: unfold wgDone in *; repeat case_match; sets.
  all: rewrite ?elem_of_app, ?elem_of_cons, ?Forall_app, ?Forall_cons in *.
  all: try (left; exists pc; rewrite ?elem_of_app; by auto).
  all: destruct Hin as [Hin|[Heq|Hin]]; simplify_eq;
    try (left; exists pc; rewrite ?elem_of_app, ?elem_of_cons; by auto);
    try discriminate.
  all: try (left; eexists; rewrite ?elem_of_app, ?elem_of_cons; split;
            [right; left; reflexivity|done]).
  all: right; eapply neighborsHandled_step; [exact Hstep0|]; apply Hw.
Qed.

Lemma nodeCover_step s s' n :
  Forall (workerCover env s) (workers s) -> step env s s' ->
  nodeCover env s n -> nodeCover env s' n.
Proof.
  intros Hw Hstep [(pc & Hin & Hpc)|Hh].
  - by eapply pastEmit_step.
  - right. by eapply neighborsHandled_step.
Qed.

Lemma InvCover_init root : InvCover env root (BFS_init env root).
Proof.
  split; simpl; try done.
  right. right. left. simpl. apply list_elem_of_here.
Qed.

Lemma InvCover_step root s s' :
  InvNodes env s -> InvCover env root s -> step env s s' -> InvCover env root s'.
Proof.
  intros [HNw _ _ _ _] [Hseed Hw Hch Hg] Hstep.
  pose proof (handled_step s s' root 0 Hstep Hseed) as Hseed'.
  assert (Forall (nodeCover env s') (domainGraphChan s)) as Hch'.
  { eapply Forall_impl; [exact Hch|]. intros n. by apply nodeCover_step. }
  assert (forall k n, domainGraph s !! k = Some n -> nodeCover env s' n) as Hg'.
  { intros k n Hkn. eapply nodeCover_step; [done..|]. by eapply Hg. }
  assert (Forall (workerCover env s') (workers s)) as Hw'.
  { eapply Forall_impl; [exact Hw|]. intros w. by apply workerCover_step. }
  clear Hseed Hw Hch Hg.
  assert (forall x d, handled env s x d -> handled env s' x d) as Hmono
    by (intros x d; by apply handled_step).
  turn Hstep; bools; pool.
  all: unfold wgDone in *; repeat case_match; sets.
  all: split; sets; try done.
  all: match goal with
       | Hm : forall x d, _ -> handled env ?S x d |- _ => set (S' := S) in *
       end.
  all: rewrite ?Forall_app, ?Forall_cons, ?Forall_nil in *.
  all: try (intuition; fail).
  - repeat split; tauto.
  - repeat split; tauto.
  - split; [tauto|split; [|tauto]].
    unfold workerCover, neighborsHandled. simpl. intros x Hx. left.
    destruct HNw as (_ & [_ [-> _]] & _). done.
  - split; [tauto|split; [|done]].
    left. exists (WRange neighbors). split; [|done].
    unfold S'. sets. rewrite elem_of_app, elem_of_cons. auto.
  - split; [tauto|split; [|tauto]].
    destruct Hw' as (_ & Hy & _). unfold workerCover, neighborsHandled in *.
    simpl in *. intros x Hx.
    destruct (Hy x Hx) as [[->|Hin]%elem_of_cons|Hh]; [right|by left|by right].
    right. right. left. unfold S'. sets. rewrite elem_of_app. right.
    apply list_elem_of_here.
  - by rewrite H0.
  - intros k n [[<- <-]|[_ Hl]]%lookup_insert_Some; [tauto|by eapply Hg'].
Qed.



(** *** Where a node comes from *)

Lemma emitted_step s s' p : InvUniq s -> step env s s' -> emitted s p -> emitted s' p.
Proof.
  intros HU Hstep [Hin|[k Hk]].
  - unfold emitted. turn Hstep; bools; pool.
    all: unfold wgDone in *; repeat case_match; sets.
    all: rewrite ?elem_of_app, ?elem_of_cons in *; try (by auto).
    { by apply elem_of_nil in Hin. }
    destruct Hin as [->|Hin]; [right|by left].
    eexists. apply lookup_insert_eq.
  - right. exists k. by apply (keeps_step s s' HU Hstep).
Qed.

Lemma origin_step root s s' n :
  InvUniq s -> step env s s' -> origin env root s n -> origin env root s' n.
Proof.
  intros HU Hstep [Hseed|(p & Hp & Hx & Hd)]; [by left|].
  right. exists p. split; [by eapply emitted_step|done].
Qed.

Lemma workerOrigin_step root s s' w :
  InvUniq s -> step env s s' -> workerOrigin env root s w -> workerOrigin env root s' w.
Proof.
  intros HU Hstep [Ho Hpc]. split; [by eapply origin_step|].
  destruct (snd w); try done; destruct Hpc as [He Hx];
    (split; [by eapply emitted_step|done]).
Qed.

Lemma InvOrigin_init root : InvOrigin env root (BFS_init env root).
Proof.
  split; simpl; try done.
  apply Forall_singleton. by left.
Qed.

Lemma InvOrigin_step root s s' :
  InvNodes env s -> InvUniq s -> InvOrigin env root s -> step env s s' ->
  InvOrigin env root s'.
Proof.
  intros [HNw _ _ _ _] HU [Hf Hd Hw Hch Hg] Hstep.
  assert (forall n, origin env root s n -> origin env root s' n) as Hmono
    by (intros n; by apply origin_step).
  assert (forall p, emitted s p -> emitted s' p) as Hemit
    by (intros p; by apply emitted_step).
  assert (Forall (origin env root s') (domainChan s)) as Hf'
    by (eapply Forall_impl; [exact Hf|done]).
  assert (match dispatcher s with DHave n => origin env root s' n | DRecv => True end) as Hd'
    by (destruct (dispatcher s); [done|by apply Hmono]).
  assert (Forall (workerOrigin env root s') (workers s)) as Hw'.
  { eapply Forall_impl; [exact Hw|]. intros w. by apply workerOrigin_step. }
  assert (Forall (origin env root s') (domainGraphChan s)) as Hch'
    by (eapply Forall_impl; [exact Hch|done]).
  assert (forall k n, domainGraph s !! k = Some n -> origin env root s' n) as Hg'
    by (intros k n Hkn; eapply Hmono, Hg; done).
  clear Hf Hd Hw Hch Hg HU.
  turn Hstep; bools; pool.
  all: unfold wgDone in *; repeat case_match; sets.
  all: split; sets; try done.
  all: match goal with
       | Hm : forall n, _ -> origin env _ ?S n |- _ => set (S' := S) in *
       end.
  all: rewrite ?Forall_app, ?Forall_cons, ?Forall_nil in *.
  all: try (intuition; fail).
  all: try (match goal with H : dispatcher _ = _ |- _ => rewrite H end; done).
  all: unfold workerOrigin in *; simpl in *.
  all: try (intuition; fail).
  all: repeat split; try tauto.
  all: try (left; unfold S'; sets; rewrite elem_of_app; right; apply list_elem_of_here).
  all: try (destruct HNw as (_ & [_ [-> _]] & _); done).
  all: try (destruct Hw' as (_ & (_ & _ & Hxs) & _); intros x Hx; apply Hxs; by right).
  all: try (destruct Hw' as (_ & (_ & He & Hxs) & _); right; exists d;
            split; [exact He|split; [apply Hxs; by left|reflexivity]]).
  all: try (match goal with H : domainGraphChan _ = [] |- _ => by rewrite H end).
  all: intros k n [[<- <-]|[_ Hl]]%lookup_insert_Some; [tauto|by eapply Hg'].
Qed.

(** *** The further invariants in every state of a run *)

Lemma reachable_InvDepth s : reachable env s -> InvDepth env s.
Proof. revert s. apply reachable_ind; [apply InvDepth_init|apply InvDepth_step]. Qed.

Lemma reachable_InvRange s :
  (maxDepth env < 2 ^ 63 - 1)%Z -> reachable env s -> InvRange env s.
Proof.
  intros Hmax. revert s.
  apply reachable_ind; [apply InvRange_init|intros s s'; by apply InvRange_step].
Qed.

Lemma reachable_InvExact s : reachable env s -> InvExact s.
Proof. revert s. apply reachable_ind; [apply InvExact_init|apply InvExact_step]. Qed.

Lemma reachable_InvCover s :
  reachable env s -> InvCover env (ToLower env (host env)) s.
Proof.
  intros Hr.
  cut (InvNodes env s /\ InvCover env (ToLower env (host env)) s); [tauto|].
  revert s Hr. apply reachable_ind.
  - split; [apply InvNodes_init|apply InvCover_init].
  - intros s s' [HN HC] Hstep. split; [by eapply InvNodes_step|by eapply InvCover_step].
Qed.

Lemma reachable_InvOrigin s :
  reachable env s -> InvOrigin env (ToLower env (host env)) s.
Proof.
  intros Hr.
  cut (InvNodes env s /\ InvUniq s /\ InvOrigin env (ToLower env (host env)) s); [tauto|].
  revert s Hr. apply reachable_ind.
  - split; [apply InvNodes_init|split; [apply InvUniq_init|apply InvOrigin_init]].
  - intros s s' (HN & HU & HO) Hstep.
    split; [by eapply InvNodes_step|split; [by eapply InvUniq_step|by eapply InvOrigin_step]].
Qed.

Lemma reachable_step s s' : reachable env s -> step env s s' -> reachable env s'.
Proof. unfold reachable. intros Hr Hs. by eapply rtc_r. Qed.

Lemma keeps_refl s : keeps s s.
Proof. unfold keeps. split; [done|]. split; [done|]. split; [by exists []|lia]. Qed.

Lemma keeps_trans s1 s2 s3 : keeps s1 s2 -> keeps s2 s3 -> keeps s1 s3.
Proof.
  intros (Hm1 & Hg1 & [n1 Hr1] & Hd1) (Hm2 & Hg2 & [n2 Hr2] & Hd2).
  unfold keeps. split; [by auto|]. split; [by auto|]. split; [|lia].
  exists (n2 ++ n1). by rewrite Hr2, Hr1, app_assoc.
Qed.

(** When [BFS] has returned, the resolver log, the recorded domains and
    the marked domains are the same set. *)
Lemma returned_occ s d :
  Inv env s -> InvUniq s -> InvExact s -> mainPC s = MReturned ->
  occ d (resolved s) = (match domainGraph s !! d with Some _ => 1 | None => 0 end)
  /\ (if mapGet (markedDomains s) d then 1 else 0)
     = (match domainGraph s !! d with Some _ => 1 | None => 0 end).
Proof.
  intros HI [_ Hres] HE Hm.
  destruct (returned_quiescent s HI Hm) as (_ & Hws & _ & _ & Hgc & _).
  specialize (Hres d). specialize (HE d).
  unfold admittedDomains, visitedDomains in *. rewrite Hws, Hgc in *. simpl in *.
  rewrite occ_keys in *. split; [done|]. by rewrite <-HE.
Qed.

Lemma returned_resolved_elem s d :
  Inv env s -> InvUniq s -> InvExact s -> mainPC s = MReturned ->
  d ∈ resolved s <-> is_Some (domainGraph s !! d).
Proof.
  intros HI HU HE Hm. destruct (returned_occ s d HI HU HE Hm) as [Hocc _].
  rewrite list_elem_of_In, (count_occ_In string_dec). unfold occ in Hocc.
  destruct (domainGraph s !! d); split; intros H; try done; try lia;
    try (by destruct H).
Qed.


(** *** Further properties of every run *)

(** X11: with a negative depth bound the seed itself is beyond the bound:
    no worker is ever started, nothing is resolved, marked or recorded. *)
Theorem negative_depth_runs_nothing s :
  (maxDepth env < 0)%Z -> reachable env s ->
  workers s = [] /\ domainGraphChan s = [] /\ resolved s = []
  /\ domainGraph s = ∅
  /\ (forall d, mapGet (markedDomains s) d = false).
Proof.
  intros Hneg Hr.
  assert (maxDepth env < 2 ^ 63 - 1)%Z as Hmax by lia.
  destruct (reachable_InvRange s Hmax Hr) as [_ _ Hw Hch Hg].
  destruct (reachable_InvUniq s Hr) as [_ Hres]. pose proof (reachable_InvExact s Hr) as HE.
  assert (workers s = []) as Hws.
  { destruct (workers s) as [|w ws]; [done|].
    apply Forall_cons in Hw as [Hd _]. unfold admittedDepth in Hd. lia. }
  assert (domainGraphChan s = []) as Hgc.
  { destruct (domainGraphChan s) as [|n l]; [done|].
    apply Forall_cons in Hch as [Hd _]. unfold admittedDepth in Hd. lia. }
  assert (domainGraph s = ∅) as Hge.
  { apply map_empty. intros k. destruct (domainGraph s !! k) as [n|] eqn:Hk; [|done].
    specialize (Hg _ _ Hk). unfold admittedDepth in Hg. lia. }
  split; [done|]. split; [done|].
  unfold InvExact, admittedDomains, visitedDomains in *.
  rewrite Hws, Hgc, Hge in *. rewrite map_to_list_empty in *. simpl in *.
  split; [|split; [done|]].
  - destruct (resolved s) as [|x l]; [done|]. specialize (Hres x).
    rewrite occ_cons, decide_True in Hres by done. lia.
  - intros d. specialize (HE d). by destruct (mapGet (markedDomains s) d).
Qed.

(** X12: [depth], which [main] reports as the graph depth, is never
    negative, never above the depth bound (or 0), and never below the depth
    of an admitted or recorded node. *)
Theorem depth_high_water s :
  reachable env s ->
  (0 <= depth s <= Z.max 0 (maxDepth env))%Z
  /\ (forall n pc, (n, pc) ∈ workers s -> (Depth n <= depth s)%Z)
  /\ (forall n, n ∈ domainGraphChan s -> (Depth n <= depth s)%Z)
  /\ (forall k n, domainGraph s !! k = Some n -> (Depth n <= depth s)%Z).
Proof.
  intros Hr. destruct (reachable_InvDepth s Hr) as [Hn Hm Hw Hch Hg].
  split; [lia|]. split; [|split; [|done]].
  - intros n pc Hin. rewrite Forall_forall in Hw. apply (Hw _ Hin).
  - intros n Hin. rewrite Forall_forall in Hch. by apply Hch.
Qed.

(** X13: when the depth bound is below the largest [int], depths never
    wrap around: every node of a run has a depth between 0 and the bound
    plus one, and the items a worker queues are exactly one level below
    its node. *)
Theorem depths_in_range s :
  (maxDepth env < 2 ^ 63 - 1)%Z -> reachable env s ->
  (forall n, n ∈ nodesOf s -> (0 <= Depth n <= Z.max 0 (maxDepth env + 1))%Z)
  /\ (forall n pc, (n, pc) ∈ workers s ->
        (0 <= Depth n <= maxDepth env)%Z /\ childDepth n = (Depth n + 1)%Z).
Proof.
  intros Hmax Hr. destruct (reachable_InvRange s Hmax Hr) as [Hf Hd Hw Hch Hg].
  rewrite Forall_forall in Hf. rewrite Forall_forall in Hw. rewrite Forall_forall in Hch.
  unfold frontierDepth, admittedDepth in *.
  split.
  - intros n Hin. unfold nodesOf in Hin. rewrite !elem_of_app in Hin.
    destruct Hin as [Hin|[Hin|[Hin|[Hin|Hin]]]].
    + by apply Hf.
    + destruct (dispatcher s) as [|n']; [by apply elem_of_nil in Hin|].
      by apply list_elem_of_singleton in Hin as ->.
    + apply list_elem_of_fmap in Hin as ([n' pc] & -> & Hin).
      specialize (Hw _ Hin). simpl in *. lia.
    + specialize (Hch _ Hin). lia.
    + apply list_elem_of_fmap in Hin as ([k n'] & -> & Hin%elem_of_map_to_list).
      specialize (Hg _ _ Hin). simpl in *. lia.
  - intros n pc Hin. specialize (Hw _ Hin). simpl in Hw. split; [done|].
    unfold childDepth. apply wrap64_small. lia.
Qed.

(** X14: from any state of a run onwards, whatever turns are taken, a
    marked domain stays marked, a recorded node is never replaced or
    removed, the resolver log only grows and [depth] never goes down. *)
Theorem run_keeps s s' :
  reachable env s -> rtc (step env) s s' -> keeps s s'.
Proof.
  intros Hr Hrun. induction Hrun as [|s s1 s2 Hstep Hrun IH]; [apply keeps_refl|].
  eapply keeps_trans.
  - apply keeps_step; [by apply reachable_InvUniq|done].
  - apply IH. by eapply reachable_step.
Qed.

(** X15: [domainGraphChan] is closed only after the frontier has drained
    and every worker has returned, so no worker can send on the closed
    channel. *)
Theorem closed_after_drain s :
  (1 <= parallel env)%Z -> reachable env s -> closed s = true ->
  wg s = 0%Z /\ workers s = [] /\ domainChan s = [] /\ dispatcher s = DRecv.
Proof.
  intros HP Hr Hcl. destruct (reachable_Inv s HP Hr) as [_ Hwg _ Hsh].
  assert (wg s = 0%Z) as Hz.
  { unfold shutdownOk in Hsh. destruct (mainPC s); intuition congruence. }
  split; [done|]. apply outstanding_zero. lia.
Qed.

(** X16: when [BFS] has returned, the hosts handed to the resolver, the
    domains recorded in the graph and the marked domains are the same, and
    each of them was resolved exactly once. *)
Theorem returned_graph_is_resolved s :
  (1 <= parallel env)%Z -> reachable env s -> mainPC s = MReturned ->
  (forall d, d ∈ resolved s <-> is_Some (domainGraph s !! d))
  /\ (forall d, mapGet (markedDomains s) d = true <-> is_Some (domainGraph s !! d))
  /\ NoDup (resolved s)
  /\ length (resolved s) = size (domainGraph s).
Proof.
  intros HP Hr Hm.
  pose proof (reachable_Inv s HP Hr) as HI. pose proof (reachable_InvUniq s Hr) as HU.
  pose proof (reachable_InvExact s Hr) as HE.
  assert (forall d, d ∈ resolved s <-> is_Some (domainGraph s !! d)) as Hiff
    by (intros d; by apply returned_resolved_elem).
  split; [done|]. split; [|split; [by apply resolved_NoDup|]].
  - intros d. destruct (returned_occ s d HI HU HE Hm) as [_ Hmk].
    destruct (mapGet (markedDomains s) d), (domainGraph s !! d); split; intros H;
      try done; try lia; try (by destruct H).
  - rewrite <-length_map_to_list, <-(length_fmap fst).
    apply Permutation_length, NoDup_Permutation;
      [by apply resolved_NoDup|apply NoDup_fst_map_to_list|].
    intros d. rewrite Hiff, list_elem_of_fmap. split.
    + intros [n Hn]. exists (d, n). split; [done|]. by apply elem_of_map_to_list.
    + intros ([k n] & -> & Hin%elem_of_map_to_list). by exists n.
Qed.

(** X17: when [BFS] has returned, nothing the certificates name within the
    bound has been left out: with a bound of at least 0 the seed is
    recorded, and for every recorded node above the bound's last level the
    canonical domain of every neighbour is recorded too. *)
Theorem returned_graph_is_complete s :
  (1 <= parallel env)%Z -> (maxDepth env < 2 ^ 63 - 1)%Z ->
  reachable env s -> mainPC s = MReturned ->
  ((0 <= maxDepth env)%Z ->
     is_Some (domainGraph s !! directDomain (ToLower env (host env))))
  /\ (forall k n x, domainGraph s !! k = Some n -> (Depth n < maxDepth env)%Z ->
        x ∈ BFSPeers env k -> is_Some (domainGraph s !! directDomain x)).
Proof.
  intros HP Hmax Hr Hm.
  pose proof (reachable_Inv s HP Hr) as HI. pose proof (reachable_InvUniq s Hr) as HU.
  pose proof (reachable_InvExact s Hr) as HE.
  destruct (reachable_InvNodes s Hr) as [_ _ HNg _ _].
  destruct (reachable_InvRange s Hmax Hr) as [_ _ _ _ HRg].
  destruct (reachable_InvCover s Hr) as [Hseed _ _ Hg].
  destruct (returned_quiescent s HI Hm) as (_ & Hws & Hdc & Hdr & _ & _).
  assert (forall x d, handled env s x d -> (d <= maxDepth env)%Z ->
            is_Some (domainGraph s !! directDomain x)) as Hdone.
  { intros x d [Hd|[Hmk|[Hin|Hdh]]] Hle.
    - lia.
    - destruct (returned_occ s (directDomain x) HI HU HE Hm) as [_ Heq].
      rewrite Hmk in Heq. by destruct (domainGraph s !! directDomain x).
    - rewrite Hdc in Hin. by apply elem_of_nil in Hin.
    - congruence. }
  split.
  - intros Hpos. by apply (Hdone _ 0%Z).
  - intros k n x Hkn Hdepth Hx.
    destruct (HNg _ _ Hkn) as (-> & _ & _). specialize (HRg _ _ Hkn).
    unfold admittedDepth in HRg.
    destruct (Hg _ _ Hkn) as [(pc & Hin & _)|Hh].
    { rewrite Hws in Hin. by apply elem_of_nil in Hin. }
    destruct (Hh x Hx) as [Hin|Hh']; [by apply elem_of_nil in Hin|].
    apply (Hdone _ _ Hh'). unfold childDepth. rewrite wrap64_small; lia.
Qed.

(** X18: every recorded node is the seed at depth 0 or was named by the
    certificate of a node that had been sent to the save goroutine before,
    one level above it (depths not wrapping around). *)
Theorem recorded_nodes_have_parents s k n :
  (maxDepth env < 2 ^ 63 - 1)%Z -> reachable env s ->
  domainGraph s !! k = Some n ->
  (Domain n = ToLower env (host env) /\ Depth n = 0%Z)
  \/ (exists p, emitted s p
                /\ Domain n ∈ BFSPeers env (directDomain (Domain p))
                /\ Depth n = (Depth p + 1)%Z).
Proof.
  intros Hmax Hr Hkn.
  destruct (reachable_InvOrigin s Hr) as [_ _ _ _ Hg].
  destruct (reachable_InvRange s Hmax Hr) as [_ _ _ HRc HRg].
  destruct (Hg _ _ Hkn) as [Hseed|(p & Hp & Hx & Hd)]; [by left|].
  right. exists p. split; [done|]. split; [done|].
  rewrite Hd. unfold childDepth. apply wrap64_small.
  assert (admittedDepth env p) as Hrange.
  { destruct Hp as [Hin|[k' Hk']]; [|by eapply HRg].
    rewrite Forall_forall in HRc. by apply HRc. }
  unfold admittedDepth in Hrange. lia.
Qed.

End Traversal.

(** * Concrete runs *)

Example chain_run :
  stdout (main (chainEnv 20 10) 100) =
  Some [("a.test", 0, ["a.test"; "b.test"]); ("b.test", 1, ["b.test"; "c.test"]);
        ("c.test", 2, ["c.test"])].
Proof. vm_compute. reflexivity. Qed.

Example refused_run :
  stdout (main refusedEnv 100) =
  Some [("a.test", 0, ["*.b.test"; "a.test"; "c.test"]); ("b.test", 1, []);
        ("c.test", 1, ["b.test"; "c.test"])].
Proof. vm_compute. reflexivity. Qed.

Lemma chainFinal_reachable D P : reachable (chainEnv D P) (chainFinal D P).
Proof. apply run_steps. Qed.

Lemma refusedFinal_reachable : reachable refusedEnv refusedFinal.
Proof. apply run_steps. Qed.

Lemma bounded_concurrency_witness :
  (1 <= parallel refusedEnv)%Z
  /\ reachable refusedEnv refusedFinal
  /\ (Z.of_nat (callsInFlight refusedFinal) <= 2)%Z
  /\ (length (threadPass refusedFinal) + passesHeld refusedFinal)%nat = 2%nat.
Proof.
  assert (1 <= parallel refusedEnv)%Z as HP by (simpl; lia).
  pose proof (bounded_concurrency refusedEnv refusedFinal HP refusedFinal_reachable)
    as (H1 & _ & H2 & _).
  exact (conj HP (conj refusedFinal_reachable (conj H1 H2))).
Defined.

Lemma BFS_terminates_witness :
  closedUnder (chainEnv 20 2) chainDomains "a.test"
  /\ (1 <= parallel (chainEnv 20 2))%Z
  /\ mainPC (run (chainEnv 20 2)
               (measure (chainEnv 20 2) chainDomains (BFS_init (chainEnv 20 2) "a.test"))
               (BFS_init (chainEnv 20 2) "a.test")) = MReturned
  /\ measure (chainEnv 20 2) chainDomains (BFS_init (chainEnv 20 2) "a.test") = 49%nat.
Proof.
  assert (closedUnder (chainEnv 20 2) chainDomains "a.test") as HU
    by (apply closedUnderb_sound; vm_compute; reflexivity).
  assert (1 <= parallel (chainEnv 20 2))%Z as HP by (simpl; lia).
  assert (measure (chainEnv 20 2) chainDomains (BFS_init (chainEnv 20 2) "a.test")
          = 49%nat) as Hm by (vm_compute; reflexivity).
  pose proof (BFS_terminates (chainEnv 20 2) chainDomains "a.test" HU HP eq_refl)
    as (_ & _ & _ & _ & _ & Hret).
  exact (conj HU (conj HP (conj Hret Hm))).
Defined.



(** "*.b.test" and "b.test" are both found; one node is recorded. *)
Lemma one_node_per_domain_witness :
  reachable refusedEnv refusedFinal
  /\ NoDup (admittedDomains refusedFinal)
  /\ admittedDomains refusedFinal ≡ₚ ["a.test"; "b.test"; "c.test"].
Proof.
  pose proof (one_node_per_domain refusedEnv refusedFinal refusedFinal_reachable)
    as (H & _).
  assert (admittedDomains refusedFinal = ["c.test"; "a.test"; "b.test"]) as Heq
    by (vm_compute; reflexivity).
  split; [apply refusedFinal_reachable|]. split; [exact H|].
  rewrite Heq. apply (Permutation_app_comm ["c.test"] ["a.test"; "b.test"]).
Defined.

Lemma resolver_failure_is_absorbed_witness :
  (1 <= parallel refusedEnv)%Z
  /\ DialWithDialer refusedEnv "b.test" (port refusedEnv)
     = Failed (mkErr (Errno ECONNREFUSED) false)
  /\ reachable refusedEnv refusedFinal
  /\ BFSPeers refusedEnv "b.test" = []
  /\ NoDup (resolved refusedFinal)
  /\ (forall n, domainGraph refusedFinal !! "b.test" = Some n -> Neighbors n = Some [])
  /\ domainGraph refusedFinal !! "b.test" = Some (mkNode "*.b.test" 1 (Some [])).
Proof.
  assert (1 <= parallel refusedEnv)%Z as HP by (simpl; lia).
  assert (domainGraph refusedFinal !! "b.test" = Some (mkNode "*.b.test" 1 (Some [])))
    as Hg by (vm_compute; reflexivity).
  pose proof (resolver_failure_is_absorbed refusedEnv "b.test"
                (mkErr (Errno ECONNREFUSED) false) refusedFinal HP eq_refl
                refusedFinal_reachable)
    as (_ & _ & H1 & _ & H2 & _ & _ & H3 & _).
  exact (conj HP (conj eq_refl (conj refusedFinal_reachable
           (conj H1 (conj H2 (conj H3 Hg)))))).
Defined.

Lemma invalid_parallelism_is_fatal_witness :
  (parallel (chainEnv 20 0) < 1)%Z
  /\ stderr (main (chainEnv 20 0) 100) = ["Must enter a positive number of parallel threads"]
  /\ traversal (main (chainEnv 20 0) 100) = None
  /\ dialled (main (chainEnv 20 0) 100) = [].
Proof.
  assert (parallel (chainEnv 20 0) < 1)%Z as HP by (simpl; lia).
  pose proof (invalid_parallelism_is_fatal (chainEnv 20 0) 100 HP) as (H1 & H2 & H3 & _).
  exact (conj HP (conj H1 (conj H2 H3))).
Defined.

Lemma neighbors_never_nil_witness :
  reachable (chainEnv 20 10) (chainFinal 20 10)
  /\ is_Some (printGraph (domainGraph (chainFinal 20 10))).
Proof.
  pose proof (neighbors_never_nil (chainEnv 20 10) (chainFinal 20 10)
                (chainFinal_reachable 20 10)) as (_ & _ & H).
  split; [apply chainFinal_reachable|exact H].
Defined.

(** * Further properties of the helpers *)

Section CanonicalMore.

Local Open Scope nat_scope.

(** X1: [directDomain] never turns a non-empty name into the empty string,
    and its result is as long as the argument or two bytes shorter. *)
Theorem directDomain_nonempty (domain : string) :
  domain <> "" ->
  directDomain domain <> ""
  /\ (String.length (directDomain domain) = String.length domain
      \/ String.length domain = 2 + String.length (directDomain domain)).
Proof.
  intros Hne. destruct domain as [|a [|b [|c rest]]]; [done|split; [done|by left]..|].
  rewrite directDomain_long.
  destruct (Ascii.eqb a "*" && Ascii.eqb b "."); split; try done; [by right|by left].
Qed.

(** X2: only one wildcard label is removed: of a name that starts with
    "*.*." the second label stays, so [directDomain] applied once more
    gives something else. *)
Theorem directDomain_one_label (c : ascii) (rest : string) :
  directDomain (String "*" (String "." (String "*" (String "." (String c rest)))))
  = String "*" (String "." (String c rest))
  /\ directDomain (directDomain
       (String "*" (String "." (String "*" (String "." (String c rest))))))
     = String c rest
  /\ directDomain (directDomain
       (String "*" (String "." (String "*" (String "." (String c rest))))))
     <> directDomain (String "*" (String "." (String "*" (String "." (String c rest))))).
Proof.
  rewrite !directDomain_long. cbn [Ascii.eqb Bool.eqb andb].
  rewrite directDomain_long. cbn [Ascii.eqb Bool.eqb andb].
  split; [done|]. split; [done|].
  intros Heq. apply (f_equal String.length) in Heq. simpl in Heq. lia.
Qed.

End CanonicalMore.

Lemma directDomain_nonempty_witness :
  "*.a" <> "" /\ directDomain "*.a" <> "" /\ directDomain "*.a" = "a".
Proof.
  assert ("*.a" <> "") as Hne by discriminate.
  pose proof (directDomain_nonempty "*.a" Hne) as [H _].
  exact (conj Hne (conj H eq_refl)).
Defined.

(** X3: [checkNetErr] reports an error exactly when the error is not nil,
    whatever its kind; a line it logs names the domain it was given; and
    an error that timed out is logged as a timeout whatever its type. *)
Theorem checkNetErr_flag (err : option NetErr) (domain : string) :
  (fst (checkNetErr err domain) = true <-> err <> None)
  /\ (forall m d, snd (checkNetErr err domain) = Some (m, d) -> d = domain /\ err <> None)
  /\ (forall e, err = Some e -> errTimeout e = true ->
        snd (checkNetErr err domain) = Some ("Timeout", domain)).
Proof.
  split; [|split].
  - destruct err as [e|]; simpl; [|split; [discriminate|done]].
    split; [discriminate|intros _]. repeat case_match; done.
  - intros m d. destruct err as [e|]; simpl; [|discriminate].
    repeat case_match; intros [= <- <-]; done.
  - intros e -> Ht. simpl. by rewrite Ht.
Qed.

(** ** Neighbour derivation *)

Lemma lowerByte_idemp a : lowerByte (lowerByte a) = lowerByte a.
Proof. destruct a as [[] [] [] [] [] [] [] []]; vm_compute; reflexivity. Qed.

Lemma asciiToLower_idemp s : asciiToLower (asciiToLower s) = asciiToLower s.
Proof. induction s as [|a s IH]; simpl; [done|]. by rewrite lowerByte_idemp, IH. Qed.

Lemma asciiToLower_empty s : asciiToLower s = "" -> s = "".
Proof. by destruct s. Qed.

Section PeersMore.

Variable lower : string -> string.

Local Open Scope nat_scope.

Lemma specNames_cases certs x :
  x ∈ specNames lower certs ->
  (exists c, head certs = Some c /\ x = lower (CommonName c) /\ (0 < len x)%Z)
  \/ (exists c d, c ∈ certs /\ d ∈ DNSNames c /\ (0 < len d)%Z /\ x = lower d).
Proof.
  destruct certs as [|c certs]; [by intros ?%elem_of_nil|].
  unfold specNames. rewrite elem_of_app. intros [Hcn|Hdns].
  - left. exists c. destruct (Z.gtb_spec (len (lower (CommonName c))) 0) as [Hpos|];
      [|by apply elem_of_nil in Hcn].
    apply list_elem_of_singleton in Hcn as ->. split; [done|]. split; [done|lia].
  - right. apply list_elem_of_In, in_flat_map in Hdns as (c' & Hc' & Hx).
    apply list_elem_of_In, list_elem_of_fmap in Hx as (d & -> & Hd).
    apply list_elem_of_filter in Hd as [Hpos Hd].
    exists c', d. split; [by apply list_elem_of_In|done].
Qed.

(** X4: when lower-casing keeps non-empty strings non-empty, as
    [strings.ToLower] does, no neighbour is the empty string. *)
Theorem peerDomains_no_empty_name (certs : list Certificate) :
  (forall s, lower s = "" -> s = "") -> "" ∉ peerDomains lower certs.
Proof.
  intros Hlow Hin. apply peerDomains_elem, specNames_cases in Hin.
  destruct Hin as [(c & _ & _ & Hpos)|(c & d & _ & _ & Hpos & Heq)].
  - unfold len in Hpos. simpl in Hpos. lia.
  - symmetry in Heq. apply Hlow in Heq. subst d. unfold len in Hpos. simpl in Hpos. lia.
Qed.

(** X5: when lower-casing a lower-cased string changes nothing, as with
    [strings.ToLower], every neighbour is in lower case. *)
Theorem peerDomains_lower_case (certs : list Certificate) (x : string) :
  (forall s, lower (lower s) = lower s) -> x ∈ peerDomains lower certs -> lower x = x.
Proof.
  intros Hid Hin. apply peerDomains_elem, specNames_cases in Hin.
  destruct Hin as [(c & _ & -> & _)|(c & d & _ & _ & _ & ->)]; apply Hid.
Qed.

(** Number of DNS names in a chain. *)
Lemma specNames_length certs :
  length (specNames lower certs) <= 1 + sum_list_with (fun c => length (DNSNames c)) certs.
Proof.
  destruct certs as [|c certs]; [simpl; lia|].
  unfold specNames. rewrite length_app.
  assert (forall cs, length (flat_map (fun cert => lower <$> filter (fun d => (0 < len d)%Z)
                                                   (DNSNames cert)) cs)
                     <= sum_list_with (fun c => length (DNSNames c)) cs) as Hflat.
  { induction cs as [|c' cs IH]; simpl; [done|].
    rewrite length_app, length_fmap.
    pose proof (length_filter (fun d => (0 < len d)%Z) (DNSNames c')). lia. }
  specialize (Hflat (c :: certs)).
  destruct (len (lower (CommonName c)) >? 0)%Z; simpl in *; lia.
Qed.

(** X6: a chain yields at most one neighbour per DNS name it carries, plus
    one for the common name of the leaf; an empty chain yields none. *)
Theorem peerDomains_length (certs : list Certificate) :
  length (peerDomains lower certs)
  <= 1 + sum_list_with (fun c => length (DNSNames c)) certs
  /\ (certs = [] -> peerDomains lower certs = []).
Proof.
  split; [|by intros ->].
  etrans; [|apply specNames_length].
  apply submseteq_length, NoDup_submseteq; [apply peerDomains_NoDup|].
  intros x. apply peerDomains_elem.
Qed.

Lemma addCerts_names m certs f :
  addCerts lower m (map (fun c => mkCert (f c) (DNSNames c)) certs) = addCerts lower m certs.
Proof.
  unfold addCerts. revert m. induction certs as [|c certs IH]; intros m; [done|].
  simpl. apply IH.
Qed.

(** X7: the common names of the certificates after the first play no part:
    replacing them by anything leaves the neighbour list as it is. *)
Theorem peerDomains_ignores_chain_common_names
  (c : Certificate) (rest : list Certificate) (f : Certificate -> string) :
  peerDomains lower (c :: map (fun c' => mkCert (f c') (DNSNames c')) rest)
  = peerDomains lower (c :: rest).
Proof.
  unfold peerDomains, domainMapOf. do 2 f_equal.
  unfold addCerts. cbn [foldl addCommonName].
  apply (addCerts_names _ rest f).
Qed.

(** X8: the neighbour list depends only on which names the chain
    declares, not on their order, their number of occurrences or the
    certificate that carries them. *)
Theorem peerDomains_same_names (certs certs' : list Certificate) :
  (forall x, x ∈ specNames lower certs <-> x ∈ specNames lower certs') ->
  peerDomains lower certs = peerDomains lower certs'.
Proof.
  intros Hsame.
  apply (StronglySorted_unique String.le); [apply peerDomains_sorted..|].
  apply NoDup_Permutation; [apply peerDomains_NoDup..|].
  intros x. by rewrite !peerDomains_elem.
Qed.

End PeersMore.

Lemma peerDomains_no_empty_name_witness :
  (forall s, asciiToLower s = "" -> s = "")
  /\ "" ∉ peerDomains asciiToLower [mkCert "" [""; "B.test"]].
Proof.
  exact (conj asciiToLower_empty
           (peerDomains_no_empty_name asciiToLower [mkCert "" [""; "B.test"]]
              asciiToLower_empty)).
Defined.

Lemma peerDomains_lower_case_witness :
  (forall s, asciiToLower (asciiToLower s) = asciiToLower s)
  /\ "b.test" ∈ peerDomains asciiToLower [mkCert "" [""; "B.test"]]
  /\ asciiToLower "b.test" = "b.test".
Proof.
  assert ("b.test" ∈ peerDomains asciiToLower [mkCert "" [""; "B.test"]]) as Hin
    by (vm_compute; apply list_elem_of_here).
  exact (conj asciiToLower_idemp (conj Hin
           (peerDomains_lower_case asciiToLower _ _ asciiToLower_idemp Hin))).
Defined.

Lemma peerDomains_same_names_witness :
  (forall x, x ∈ specNames asciiToLower [mkCert "a.test" ["B.test"; "a.test"]]
             <-> x ∈ specNames asciiToLower [mkCert "" ["A.TEST"]; mkCert "ca" ["b.test"]])
  /\ peerDomains asciiToLower [mkCert "a.test" ["B.test"; "a.test"]]
     = peerDomains asciiToLower [mkCert "" ["A.TEST"]; mkCert "ca" ["b.test"]].
Proof.
  assert (forall x, x ∈ specNames asciiToLower [mkCert "a.test" ["B.test"; "a.test"]]
             <-> x ∈ specNames asciiToLower [mkCert "" ["A.TEST"]; mkCert "ca" ["b.test"]])
    as Hsame.
  { intros x. vm_compute specNames. rewrite !elem_of_cons, !elem_of_nil. tauto. }
  exact (conj Hsame (peerDomains_same_names asciiToLower _ _ Hsame)).
Defined.

(** ** Reporting *)

Section Report.

Local Open Scope nat_scope.

Lemma sorted_keys_elem (g : gmap string DomainNode) k :
  k ∈ sortStrings (map_to_list g).*1 <-> is_Some (g !! k).
Proof.
  unfold sortStrings. rewrite merge_sort_Permutation, list_elem_of_fmap. split.
  - intros ([k' n] & -> & Hin%elem_of_map_to_list). by exists n.
  - intros [n Hn]. exists (k, n). split; [done|]. by apply elem_of_map_to_list.
Qed.

Lemma printLine_Some g k line :
  printLine g k = Some line <->
  exists n ns, g !! k = Some n /\ Neighbors n = Some ns /\ line = (k, Depth n, ns).
Proof.
  unfold printLine. split.
  - destruct (g !! k) as [n|]; [|done]. destruct (Neighbors n) as [ns|] eqn:Hn; [|done].
    intros [= <-]. by exists n, ns.
  - intros (n & ns & -> & -> & ->). done.
Qed.

Lemma printed_domains g keys lines :
  Forall2 (fun k line => printLine g k = Some line) keys lines -> lines.*1.*1 = keys.
Proof.
  induction 1 as [|k line keys lines Hline _ IH]; [done|].
  apply printLine_Some in Hline as (n & ns & _ & _ & ->). by rewrite !fmap_cons, IH.
Qed.

(** X9: what [printGraph] prints when no dereference faults: one line per
    entry of the graph, in ascending order of the domains, each line
    carrying the domain it is stored under, the depth and the neighbours
    of its node. *)
Theorem printGraph_lines (g : gmap string DomainNode)
  (lines : list (string * Z * list string)) :
  printGraph g = Some lines ->
  lines.*1.*1 = sortStrings (map_to_list g).*1
  /\ StronglySorted String.le (lines.*1.*1)
  /\ NoDup (lines.*1.*1)
  /\ length lines = size g
  /\ (forall d z ns, (d, z, ns) ∈ lines <->
        exists n, g !! d = Some n /\ Depth n = z /\ Neighbors n = Some ns).
Proof.
  unfold printGraph. intros Hp%mapM_Some_1.
  pose proof (printed_domains _ _ _ Hp) as Hdom.
  split; [done|]. rewrite Hdom. split; [|split; [|split]].
  - apply StronglySorted_merge_sort; apply _.
  - unfold sortStrings. rewrite merge_sort_Permutation. apply NoDup_fst_map_to_list.
  - rewrite <-(Forall2_length _ _ _ Hp). unfold sortStrings.
    rewrite merge_sort_Permutation, length_fmap. apply length_map_to_list.
  - intros d z ns. split.
    + intros (i & Hi)%list_elem_of_lookup.
      destruct (Forall2_lookup_r _ _ _ _ _ Hp Hi) as (k & _ & Hline).
      apply printLine_Some in Hline as (n & ns' & Hn & Hns & [= -> -> ->]).
      by exists n.
    + intros (n & Hn & <- & Hns).
      assert (d ∈ sortStrings (map_to_list g).*1) as (i & Hi)%list_elem_of_lookup
        by (apply sorted_keys_elem; by exists n).
      destruct (Forall2_lookup_l _ _ _ _ _ Hp Hi) as (line & Hl & Hline).
      apply printLine_Some in Hline as (n' & ns' & Hn' & Hns' & ->).
      assert (n' = n) as -> by congruence. assert (ns' = ns) as -> by congruence.
      apply list_elem_of_lookup. by exists i.
Qed.

(** X10: [printGraph] faults exactly when some node of the graph has a nil
    [Neighbors] pointer. *)
Theorem printGraph_fault (g : gmap string DomainNode) :
  printGraph g = None <-> exists k n, g !! k = Some n /\ Neighbors n = None.
Proof.
  unfold printGraph. rewrite mapM_None, Exists_exists. split.
  - intros (k & [n Hn]%sorted_keys_elem & Hline). exists k, n. split; [done|].
    unfold printLine in Hline. rewrite Hn in Hline. by destruct (Neighbors n).
  - intros (k & n & Hn & Hnil). exists k. split; [apply sorted_keys_elem; by exists n|].
    unfold printLine. by rewrite Hn, Hnil.
Qed.

End Report.

Lemma printGraph_lines_witness :
  printGraph (<["b.test" := mkNode "*.b.test" 1 (Some [])]>
                {["a.test" := mkNode "a.test" 0 (Some ["*.b.test"])]})
  = Some [("a.test", 0%Z, ["*.b.test"]); ("b.test", 1%Z, [])]
  /\ length [("a.test", 0%Z, ["*.b.test"]); ("b.test", 1%Z, @nil string)]
     = size (<["b.test" := mkNode "*.b.test" 1 (Some [])]>
               ({["a.test" := mkNode "a.test" 0 (Some ["*.b.test"])]}
                : gmap string DomainNode)).
Proof.
  assert (printGraph (<["b.test" := mkNode "*.b.test" 1 (Some [])]>
                        {["a.test" := mkNode "a.test" 0 (Some ["*.b.test"])]})
          = Some [("a.test", 0%Z, ["*.b.test"]); ("b.test", 1%Z, [])]) as Hp
    by (vm_compute; reflexivity).
  pose proof (printGraph_lines _ _ Hp) as (_ & _ & _ & Hlen & _).
  exact (conj Hp Hlen).
Defined.

(** ** A whole run of [main] *)

Section MainRun.

Variable env : Env.
Variable U : list string.

Local Open Scope nat_scope.


End MainRun.

(** ** The further properties on concrete runs *)

Lemma negative_depth_runs_nothing_witness :
  (maxDepth (chainEnv (-1) 2) < 0)%Z
  /\ reachable (chainEnv (-1) 2) (chainFinal (-1) 2)
  /\ resolved (chainFinal (-1) 2) = []
  /\ domainGraph (chainFinal (-1) 2) = ∅.
Proof.
  assert (maxDepth (chainEnv (-1) 2) < 0)%Z as Hneg by (simpl; lia).
  pose proof (negative_depth_runs_nothing (chainEnv (-1) 2) (chainFinal (-1) 2) Hneg
                (chainFinal_reachable (-1) 2)) as (_ & _ & Hres & Hg & _).
  exact (conj Hneg (conj (chainFinal_reachable (-1) 2) (conj Hres Hg))).
Defined.

Lemma depth_high_water_witness :
  reachable (chainEnv 1 2) (chainFinal 1 2)
  /\ (0 <= depth (chainFinal 1 2) <= Z.max 0 (maxDepth (chainEnv 1 2)))%Z
  /\ depth (chainFinal 1 2) = 1%Z.
Proof.
  pose proof (depth_high_water (chainEnv 1 2) (chainFinal 1 2) (chainFinal_reachable 1 2))
    as (H & _).
  exact (conj (chainFinal_reachable 1 2) (conj H eq_refl)).
Defined.

Lemma depths_in_range_witness :
  (maxDepth (chainEnv 1 2) < 2 ^ 63 - 1)%Z
  /\ reachable (chainEnv 1 2) (chainFinal 1 2)
  /\ (forall n, n ∈ nodesOf (chainFinal 1 2) ->
        (0 <= Depth n <= Z.max 0 (maxDepth (chainEnv 1 2) + 1))%Z).
Proof.
  assert (maxDepth (chainEnv 1 2) < 2 ^ 63 - 1)%Z as Hmax by (simpl; lia).
  pose proof (depths_in_range (chainEnv 1 2) (chainFinal 1 2) Hmax
                (chainFinal_reachable 1 2)) as (H & _).
  exact (conj Hmax (conj (chainFinal_reachable 1 2) H)).
Defined.

Lemma run_keeps_witness :
  reachable refusedEnv (run refusedEnv 40 (BFS_init refusedEnv "a.test"))
  /\ rtc (step refusedEnv) (run refusedEnv 40 (BFS_init refusedEnv "a.test"))
       (run refusedEnv 60 (run refusedEnv 40 (BFS_init refusedEnv "a.test")))
  /\ keeps (run refusedEnv 40 (BFS_init refusedEnv "a.test"))
       (run refusedEnv 60 (run refusedEnv 40 (BFS_init refusedEnv "a.test"))).
Proof.
  assert (reachable refusedEnv (run refusedEnv 40 (BFS_init refusedEnv "a.test"))) as Hr
    by apply run_steps.
  pose proof (run_steps refusedEnv 60 (run refusedEnv 40 (BFS_init refusedEnv "a.test")))
    as Hrun.
  exact (conj Hr (conj Hrun (run_keeps refusedEnv _ _ Hr Hrun))).
Defined.

Lemma closed_after_drain_witness :
  (1 <= parallel refusedEnv)%Z
  /\ reachable refusedEnv refusedFinal
  /\ closed refusedFinal = true
  /\ workers refusedFinal = [].
Proof.
  assert (1 <= parallel refusedEnv)%Z as HP by (simpl; lia).
  assert (closed refusedFinal = true) as Hcl by (vm_compute; reflexivity).
  pose proof (closed_after_drain refusedEnv refusedFinal HP refusedFinal_reachable Hcl)
    as (_ & Hws & _).
  exact (conj HP (conj refusedFinal_reachable (conj Hcl Hws))).
Defined.

Lemma returned_graph_is_resolved_witness :
  (1 <= parallel refusedEnv)%Z
  /\ reachable refusedEnv refusedFinal
  /\ mainPC refusedFinal = MReturned
  /\ length (resolved refusedFinal) = size (domainGraph refusedFinal)
  /\ length (resolved refusedFinal) = 3%nat.
Proof.
  assert (1 <= parallel refusedEnv)%Z as HP by (simpl; lia).
  assert (mainPC refusedFinal = MReturned) as Hm by (vm_compute; reflexivity).
  assert (length (resolved refusedFinal) = 3%nat) as Hl by (vm_compute; reflexivity).
  pose proof (returned_graph_is_resolved refusedEnv refusedFinal HP
                refusedFinal_reachable Hm) as (_ & _ & _ & H).
  exact (conj HP (conj refusedFinal_reachable (conj Hm (conj H Hl)))).
Defined.

Lemma returned_graph_is_complete_witness :
  (1 <= parallel (chainEnv 1 2))%Z
  /\ (maxDepth (chainEnv 1 2) < 2 ^ 63 - 1)%Z
  /\ reachable (chainEnv 1 2) (chainFinal 1 2)
  /\ mainPC (chainFinal 1 2) = MReturned
  /\ is_Some (domainGraph (chainFinal 1 2) !! "a.test")
  /\ domainGraph (chainFinal 1 2) !! "c.test" = None.
Proof.
  assert (1 <= parallel (chainEnv 1 2))%Z as HP by (simpl; lia).
  assert (maxDepth (chainEnv 1 2) < 2 ^ 63 - 1)%Z as Hmax by (simpl; lia).
  assert (mainPC (chainFinal 1 2) = MReturned) as Hm by (vm_compute; reflexivity).
  assert (domainGraph (chainFinal 1 2) !! "c.test" = None) as Hc
    by (vm_compute; reflexivity).
  pose proof (returned_graph_is_complete (chainEnv 1 2) (chainFinal 1 2) HP Hmax
                (chainFinal_reachable 1 2) Hm) as (Hseed & _).
  assert (0 <= maxDepth (chainEnv 1 2))%Z as Hpos by (simpl; lia).
  exact (conj HP (conj Hmax (conj (chainFinal_reachable 1 2)
           (conj Hm (conj (Hseed Hpos) Hc))))).
Defined.

Lemma recorded_nodes_have_parents_witness :
  (maxDepth refusedEnv < 2 ^ 63 - 1)%Z
  /\ reachable refusedEnv refusedFinal
  /\ domainGraph refusedFinal !! "b.test" = Some (mkNode "*.b.test" 1 (Some []))
  /\ (exists p, emitted refusedFinal p
                /\ "*.b.test" ∈ BFSPeers refusedEnv (directDomain (Domain p))
                /\ 1%Z = (Depth p + 1)%Z).
Proof.
  assert (maxDepth refusedEnv < 2 ^ 63 - 1)%Z as Hmax by (simpl; lia).
  assert (domainGraph refusedFinal !! "b.test" = Some (mkNode "*.b.test" 1 (Some [])))
    as Hg by (vm_compute; reflexivity).
  pose proof (recorded_nodes_have_parents refusedEnv refusedFinal _ _ Hmax
                refusedFinal_reachable Hg) as [[Hseed _]|Hp].
  - discriminate Hseed.
  - exact (conj Hmax (conj refusedFinal_reachable (conj Hg Hp))).
Defined.

